(** * GSound: the GObject binding of libcanberra, [gsound/gsound-context.c]

    A shallow embedding of [gsound-context.c].  The file is a thin layer
    between two libraries that are not part of the repository:

    - libcanberra (the native sound engine), which is opaque.  Every call
      made into it is recorded, with the status code it returned, in a log
      kept in the state; the status codes come from an arbitrary engine
      [ca_engine], a function of the calls made so far.  When the engine
      calls back, it runs [on_ca_play_full_finished] on the state, as a
      step of its own, whenever it chooses to.
    - GLib/GIO, of which the code uses [GError], [GTask] and
      [GCancellable].  Module [GLib] and the section on GLib entry points
      model the documented behaviour of the functions the code calls;
      reference counts are left out.

    The functions of [gsound-context.c] are embedded in a state monad over
    [world]; they keep their C names. *)

From Stdlib Require Import ZArith String List Bool Lia.
From stdpp Require Import base option list gmap.
Import ListNotations.

Local Open Scope string_scope.
Local Open Scope list_scope.
Local Open Scope Z_scope.

(** ** C data *)

(** [const char *]: [None] is the NULL pointer. *)
Abbreviation cstr := (option string).

(** A [GCancellable *] is an address, [NULL] is address 0.  The address
    itself matters: the request token is computed from it. *)
Abbreviation GCancellable_ptr := Z.
Definition NULL : Z := 0.

(** A variadic argument list of [const char *].  The callers end it with
    NULL; a read past the last supplied argument is modelled as reading
    that NULL. *)
Abbreviation va_list := (list cstr).

(** A [GHashTable] as seen through [g_hash_table_iter_next]: its entries
    (both are [gpointer]s) in iteration order. *)
Abbreviation GHashTable := (list (cstr * cstr)).

(** ** libcanberra: the native interface *)

Module Canberra.

(** Status codes of [canberra.h]. *)
Definition CA_SUCCESS : Z := 0.
Definition CA_ERROR_NOTSUPPORTED : Z := -1.
Definition CA_ERROR_INVALID : Z := -2.
Definition CA_ERROR_STATE : Z := -3.
Definition CA_ERROR_OOM : Z := -4.
Definition CA_ERROR_CANCELED : Z := -11.

Definition CA_PROP_APPLICATION_NAME : string := "application.name".
Definition CA_PROP_APPLICATION_ID : string := "application.id".

(** Opaque handles ([ca_context *], [ca_proplist *]); a C variable of
    either type is an [option], [None] being NULL. *)
Abbreviation ca_context := nat.
Abbreviation ca_proplist := nat.

(** The entry points of libcanberra that [gsound-context.c] calls, with
    their arguments.  In [CaContextPlayFull] the last argument is the
    completion callback with its user data: [None] is the pair
    [NULL, NULL], [Some t] is [on_ca_play_full_finished] with the task
    [t]. *)
Inductive ca_call : Type :=
| CaContextCreate
| CaContextDestroy (c : ca_context)
| CaContextOpen (c : option ca_context)
| CaContextSetDriver (c : option ca_context) (driver : cstr)
| CaContextChangePropsFull (c : option ca_context) (pl : option ca_proplist)
| CaContextPlayFull (c : option ca_context) (id : Z)
                    (pl : option ca_proplist) (cb : option nat)
| CaContextCacheFull (c : option ca_context) (pl : option ca_proplist)
| CaContextCancel (c : option ca_context) (id : Z)
| CaProplistCreate
| CaProplistSets (pl : option ca_proplist) (key value : cstr)
| CaProplistDestroy (pl : ca_proplist).

(** One line of the log: a call and the status it returned. *)
Abbreviation ca_event := (ca_call * Z)%type.

(** The native engine.  It is deterministic but otherwise arbitrary: the
    status of a call and the handle written by a successful [create]
    depend on everything that was called before. *)
Record ca_engine : Type := {
  ca_status : list ca_event -> ca_call -> Z;
  ca_alloc : list ca_event -> nat;
  ca_strerror : Z -> string
}.

End Canberra.
Export Canberra.

(** ** GLib objects *)

Module GLib.

(** A [GQuark] names an error domain; it is an interned string. *)
Abbreviation GQuark := string.
Definition G_IO_ERROR : GQuark := "g-io-error-quark".
Definition G_IO_ERROR_CANCELLED : Z := 19.

Record GError : Type := {
  error_domain : GQuark;
  error_code : Z;
  error_message : string
}.

(** A [GError **] argument: [None] when the caller passes NULL, else
    the content of the location it points to. *)
Abbreviation GError_loc := (option (option GError)).

(** [g_set_error_literal]: no effect on a NULL location; a location that
    already holds an error is not overwritten. *)
Definition g_set_error_literal (err : GError_loc) (domain : GQuark)
    (code : Z) (message : string) : GError_loc :=
  match err with
  | None => None
  | Some None => Some (Some (Build_GError domain code message))
  | Some (Some e) => Some (Some e)
  end.

(** The error a [GError **] argument holds, if any. *)
Definition error_of (err : GError_loc) : option GError :=
  match err with Some e => e | None => None end.

(** The state of a [GTask], with the fields of GLib's [struct _GTask]
    that its return and propagate functions read and write.
    [check_cancellable] is TRUE in every task [g_task_new] makes and the
    code never clears it. *)
Record GTask : Type := {
  source_object : nat;
  task_cancellable : GCancellable_ptr;
  ever_returned : bool;
  task_error : option GError;
  result_set : bool;
  result_boolean : bool
}.

(** The state of a [GCancellable]: whether it was cancelled, and the
    user data of the handlers connected to its "cancelled" signal, in
    connection order.  The only handler the code connects is
    [on_cancellable_cancelled]; its user data is the [GSoundContext]. *)
Record GCancellable : Type := {
  cancelled : bool;
  handlers : list nat
}.

Definition fresh_cancellable : GCancellable :=
  {| cancelled := false; handlers := [] |}.

End GLib.
Export GLib.

(** ** The state *)

(** [struct _GSoundContext]: the parent [GObject] carries no data the
    code reads. *)
Record GSoundContext : Type := {
  ca : option ca_context
}.

(** G_DEFINE_QUARK (gsound - error - quark, gsound_error): the macro
    stringifies its first argument. *)
Definition GSOUND_ERROR : GQuark := "gsound - error - quark".

(** Objects live in stores and are referred to by reference, as in C: a
    [GSoundContext *] and a [GTask *] are indices, a [GCancellable *] is
    an address.  A context that was never written is the one
    [gsound_context_init] leaves: [ca] is NULL. *)
Record world : Type := {
  contexts : gmap nat GSoundContext;
  tasks : list GTask;
  cancellables : gmap Z GCancellable;
  ca_log : list ca_event;
  (** [g_get_application_name ()] *)
  application_name : cstr;
  (** [g_application_get_default ()], and the application id of the
      default application when there is one *)
  default_application : option cstr
}.

Definition set_contexts (f : gmap nat GSoundContext -> gmap nat GSoundContext)
    (w : world) : world :=
  {| contexts := f (contexts w); tasks := tasks w;
     cancellables := cancellables w; ca_log := ca_log w;
     application_name := application_name w;
     default_application := default_application w |}.

Definition set_tasks (f : list GTask -> list GTask) (w : world) : world :=
  {| contexts := contexts w; tasks := f (tasks w);
     cancellables := cancellables w; ca_log := ca_log w;
     application_name := application_name w;
     default_application := default_application w |}.

Definition set_cancellables
    (f : gmap Z GCancellable -> gmap Z GCancellable) (w : world) : world :=
  {| contexts := contexts w; tasks := tasks w;
     cancellables := f (cancellables w); ca_log := ca_log w;
     application_name := application_name w;
     default_application := default_application w |}.

Definition set_ca_log (f : list ca_event -> list ca_event) (w : world) : world :=
  {| contexts := contexts w; tasks := tasks w;
     cancellables := cancellables w; ca_log := f (ca_log w);
     application_name := application_name w;
     default_application := default_application w |}.

Definition context_of (w : world) (self : nat) : GSoundContext :=
  default {| ca := None |} (contexts w !! self).

Definition cancellable_of (w : world) (c : GCancellable_ptr) : GCancellable :=
  default fresh_cancellable (cancellables w !! c).

(** ** The monad *)

Definition M (A : Type) : Type := world -> A * world.

#[global] Instance M_ret : MRet M := fun A (a : A) w => (a, w).
#[global] Instance M_bind : MBind M := fun A B (f : A -> M B) (m : M A) w =>
  let (a, w') := m w in f a w'.

Definition gets {A : Type} (f : world -> A) : M A := fun w => (f w, w).
Definition modify (f : world -> world) : M unit := fun w => (tt, f w).

(** Runs [m] and keeps the final state, or the result. *)
Definition exec {A : Type} (m : M A) (w : world) : world := snd (m w).
Definition eval {A : Type} (m : M A) (w : world) : A := fst (m w).

(** The calls a run added to the log. *)
Definition new_calls (w w' : world) : list ca_event :=
  drop (length (ca_log w)) (ca_log w').

(** ** GLib entry points *)

(** [g_direct_hash (v)] is [GPOINTER_TO_UINT (v)]: the low 32 bits of the
    address. *)
Definition g_direct_hash (v : Z) : Z := v mod 2 ^ 32.

(** [g_propagate_error (dest, src)]. *)
Definition g_propagate_error (dest : GError_loc) (src : GError) : GError_loc :=
  match dest with
  | None => None
  | Some None => Some (Some src)
  | Some (Some e) => Some (Some e)
  end.

(** The task [g_task_new] makes: a pending operation. *)
Definition new_task (source : nat) (cancellable : GCancellable_ptr) : GTask :=
  {| source_object := source; task_cancellable := cancellable;
     ever_returned := false; task_error := None;
     result_set := false; result_boolean := false |}.

(** [g_task_new (source_object, cancellable, callback, callback_data)].
    The caller's [GAsyncReadyCallback] runs in the caller's main context
    once the task has returned; what it does is the caller's code. *)
Definition g_task_new (source : nat) (cancellable : GCancellable_ptr) : M nat :=
  fun w =>
    (length (tasks w),
     set_tasks (fun ts => ts ++ [new_task source cancellable]) w).

(** A task returns at most once: [g_task_return_error] and
    [g_task_return_boolean] start with
    [g_return_if_fail (!task->ever_returned)]. *)
Definition returned_error (e : GError) (t : GTask) : GTask :=
  if ever_returned t then t
  else {| source_object := source_object t;
          task_cancellable := task_cancellable t;
          ever_returned := true;
          task_error := Some e;
          result_set := result_set t;
          result_boolean := result_boolean t |}.

Definition returned_boolean (b : bool) (t : GTask) : GTask :=
  if ever_returned t then t
  else {| source_object := source_object t;
          task_cancellable := task_cancellable t;
          ever_returned := true;
          task_error := task_error t;
          result_set := true;
          result_boolean := b |}.

Definition update_task (task : nat) (f : GTask -> GTask) : M unit :=
  modify (set_tasks (fun ts =>
    match ts !! task with
    | Some t => <[task := f t]> ts
    | None => ts
    end)).

(** [g_task_return_error (task, error)]; it also rejects a NULL error. *)
Definition g_task_return_error (task : nat) (error : option GError) : M unit :=
  match error with
  | Some e => update_task task (returned_error e)
  | None => mret tt
  end.

(** [g_task_return_new_error (task, domain, code, "%s", message)]. *)
Definition g_task_return_new_error (task : nat) (domain : GQuark) (code : Z)
    (message : string) : M unit :=
  g_task_return_error task (Some (Build_GError domain code message)).

Definition g_task_return_boolean (task : nat) (b : bool) : M unit :=
  update_task task (returned_boolean b).

(** [g_task_is_valid (result, source_object)]. *)
Definition g_task_is_valid (result : nat) (source : nat) : M bool :=
  gets (fun w =>
    match tasks w !! result with
    | Some t => Nat.eqb (source_object t) source
    | None => false
    end).

(** [g_cancellable_is_cancelled]: FALSE on NULL. *)
Definition g_cancellable_is_cancelled (c : GCancellable_ptr) : M bool :=
  gets (fun w => negb (c =? NULL) && cancelled (cancellable_of w c)).

(** [g_task_propagate_boolean (task, error)].  It first runs
    [g_task_propagate_error].  A task checks its cancellable unless
    [g_task_set_check_cancellable (task, FALSE)] was called, which the
    code never does: when the cancellable that was given to [g_task_new]
    has been cancelled, the task is reported as failed with
    [G_IO_ERROR_CANCELLED], whatever error or value it returned.
    Otherwise the task's error, if any, is moved to the caller; without
    an error the boolean is handed out, once. *)
Definition g_task_propagate_boolean (task : nat) (error : GError_loc)
    : M (bool * GError_loc) :=
  t ← gets (fun w => tasks w !! task);
  match t, error with
  | None, _ => mret (false, error)
  | Some _, Some (Some _) => mret (false, error)
  | Some t, _ =>
      is_cancelled ← g_cancellable_is_cancelled (task_cancellable t);
      if is_cancelled : bool then
        mret (false, g_set_error_literal error G_IO_ERROR G_IO_ERROR_CANCELLED
                       "Operation was cancelled")
      else
        match task_error t with
        | Some e =>
            update_task task (fun t =>
              {| source_object := source_object t;
                 task_cancellable := task_cancellable t;
                 ever_returned := ever_returned t;
                 task_error := None;
                 result_set := result_set t;
                 result_boolean := result_boolean t |});;
            mret (false, g_propagate_error error e)
        | None =>
            if result_set t then
              update_task task (fun t =>
                {| source_object := source_object t;
                   task_cancellable := task_cancellable t;
                   ever_returned := ever_returned t;
                   task_error := task_error t;
                   result_set := false;
                   result_boolean := result_boolean t |});;
              mret (result_boolean t, error)
            else mret (false, error)
        end
  end.

(** [g_cancellable_connect (cancellable, callback, data, destroy)]: on a
    cancellable that is already cancelled the callback runs at once;
    otherwise the handler is connected to the "cancelled" signal.
    Reference counts are not modelled, so [g_object_ref] and the destroy
    notify [g_object_unref] leave no trace. *)
Definition g_cancellable_connect (cancellable : GCancellable_ptr)
    (callback : GCancellable_ptr -> nat -> M unit) (data : nat) : M unit :=
  c ← gets (fun w => cancellable_of w cancellable);
  if cancelled c then callback cancellable data
  else
    modify (set_cancellables
              <[cancellable := {| cancelled := false;
                                  handlers := handlers c ++ [data] |}]>).

(** Emission of the "cancelled" signal: the handlers run in connection
    order. *)
Fixpoint emit_cancelled (callback : GCancellable_ptr -> nat -> M unit)
    (cancellable : GCancellable_ptr) (hs : list nat) : M unit :=
  match hs with
  | [] => mret tt
  | data :: hs' =>
      callback cancellable data;;
      emit_cancelled callback cancellable hs'
  end.

(** [g_cancellable_cancel (cancellable)]: nothing on NULL or on a
    cancellable that is already cancelled. *)
Definition g_cancellable_cancel (callback : GCancellable_ptr -> nat -> M unit)
    (cancellable : GCancellable_ptr) : M unit :=
  is_cancelled ← g_cancellable_is_cancelled cancellable;
  if (cancellable =? NULL) || is_cancelled then mret tt
  else
    c ← gets (fun w => cancellable_of w cancellable);
    modify (set_cancellables
              <[cancellable := {| cancelled := true;
                                  handlers := handlers c |}]>);;
    emit_cancelled callback cancellable (handlers c).

(** ** The calls into libcanberra *)

Section Binding.

Variable eng : ca_engine.

(** A native call: the engine answers from the log, and the call is
    logged with its answer. *)
Definition native (c : ca_call) : M Z := fun w =>
  let r := ca_status eng (ca_log w) c in
  (r, set_ca_log (fun l => l ++ [(c, r)]) w).

(** [ca_context_create (&self->ca)] and [ca_proplist_create (&pl)]
    write the new handle through their argument on success and leave
    it alone on failure.  The first is given the context whose field it
    writes; the second returns, with the status, the content of [pl],
    which starts as [slot]. *)
Definition ca_context_create (self : nat) : M Z :=
  h ← gets (fun w => ca_alloc eng (ca_log w));
  r ← native CaContextCreate;
  (if r =? CA_SUCCESS
   then modify (set_contexts <[self := {| ca := Some h |}]>)
   else mret tt);;
  mret r.

Definition ca_proplist_create (slot : option ca_proplist)
    : M (Z * option ca_proplist) :=
  h ← gets (fun w => ca_alloc eng (ca_log w));
  r ← native CaProplistCreate;
  mret (r, if r =? CA_SUCCESS then Some h else slot).

Definition ca_context_open (c : option ca_context) : M Z :=
  native (CaContextOpen c).
Definition ca_context_set_driver (c : option ca_context) (driver : cstr)
    : M Z :=
  native (CaContextSetDriver c driver).
Definition ca_context_change_props_full (c : option ca_context)
    (pl : option ca_proplist) : M Z :=
  native (CaContextChangePropsFull c pl).
Definition ca_context_play_full (c : option ca_context) (id : Z)
    (pl : option ca_proplist) (cb : option nat) : M Z :=
  native (CaContextPlayFull c id pl cb).
Definition ca_context_cache_full (c : option ca_context)
    (pl : option ca_proplist) : M Z :=
  native (CaContextCacheFull c pl).
Definition ca_context_cancel (c : option ca_context) (id : Z) : M Z :=
  native (CaContextCancel c id).
Definition ca_proplist_sets (pl : option ca_proplist) (key value : cstr)
    : M Z :=
  native (CaProplistSets pl key value).

(** [g_clear_pointer (&pl, ca_proplist_destroy)] and
    [g_clear_pointer (&self->ca, ca_context_destroy)]: nothing on NULL;
    the variable is NULL afterwards. *)
Definition clear_proplist (pl : option ca_proplist) : M unit :=
  match pl with
  | Some p => native (CaProplistDestroy p);; mret tt
  | None => mret tt
  end.

Definition self_ca (self : nat) : M (option ca_context) :=
  gets (fun w => ca (context_of w self)).

Definition set_self_ca (self : nat) (c : option ca_context) : M unit :=
  modify (set_contexts <[self := {| ca := c |}]>).

Definition clear_self_ca (self : nat) : M unit :=
  c ← self_ca self;
  match c with
  | Some h => set_self_ca self None;; native (CaContextDestroy h);; mret tt
  | None => mret tt
  end.

(** ** [gsound-context.c] *)

Definition test_return (code : Z) (error : GError_loc) : bool * GError_loc :=
  if code =? CA_SUCCESS then (true, error)
  else (false,
        g_set_error_literal error GSOUND_ERROR code (ca_strerror eng code)).

(** The loop over the iterator; the result of [ca_proplist_sets] is
    dropped. *)
Fixpoint hash_table_to_prop_list (ht : GHashTable) (pl : option ca_proplist)
    : M unit :=
  match ht with
  | [] => mret tt
  | (key, value) :: ht' =>
      ca_proplist_sets pl key value;;
      hash_table_to_prop_list ht' pl
  end.

Fixpoint var_args_to_prop_list (args : va_list) (pl : option ca_proplist)
    : M Z :=
  match args with
  | [] | None :: _ => mret CA_SUCCESS
  | Some _ :: [] | Some _ :: None :: _ => mret CA_ERROR_INVALID
  | Some key :: Some val :: args' =>
      res ← ca_proplist_sets pl (Some key) (Some val);
      if negb (res =? CA_SUCCESS) then mret res
      else var_args_to_prop_list args' pl
  end.

(** The [g_object_unref (task)] that ends the callback drops the
    reference [gsound_context_play_full] took for the native engine. *)
Definition on_ca_play_full_finished (c : option ca_context) (id : Z)
    (error_code : Z) (user_data : nat) : M unit :=
  let task := user_data in
  if negb (error_code =? CA_SUCCESS) then
    g_task_return_new_error task GSOUND_ERROR error_code
      (ca_strerror eng error_code)
  else g_task_return_boolean task true.

Definition on_cancellable_cancelled (cancellable : GCancellable_ptr)
    (self : nat) : M unit :=
  c ← self_ca self;
  ca_context_cancel c (g_direct_hash cancellable);;
  mret tt.

(** In the functions below [g_return_val_if_fail (GSOUND_IS_CONTEXT
    (self), FALSE)] always passes: [self] refers to a context. *)

Definition gsound_context_open (self : nat) (error : GError_loc)
    : M (bool * GError_loc) :=
  c ← self_ca self;
  res ← ca_context_open c;
  mret (test_return res error).

Definition gsound_context_set_driver (self : nat) (driver : cstr)
    (error : GError_loc) : M (bool * GError_loc) :=
  c ← self_ca self;
  res ← ca_context_set_driver c driver;
  mret (test_return res error).

Definition gsound_context_change_attrs (self : nat) (error : GError_loc)
    (args : va_list) : M (bool * GError_loc) :=
  '(res, pl) ← ca_proplist_create None;
  if negb (res =? CA_SUCCESS) then mret (test_return res error)
  else
    var_args_to_prop_list args pl;;
    c ← self_ca self;
    res ← ca_context_change_props_full c pl;
    clear_proplist pl;;
    mret (test_return res error).

Definition gsound_context_change_attrsv (self : nat) (attrs : GHashTable)
    (error : GError_loc) : M (bool * GError_loc) :=
  '(res, pl) ← ca_proplist_create None;
  let '(ok, error) := test_return res error in
  if negb ok then mret (false, error)
  else
    hash_table_to_prop_list attrs pl;;
    c ← self_ca self;
    res ← ca_context_change_props_full c pl;
    clear_proplist pl;;
    mret (test_return res error).

(** What follows the submission in every play function. *)
Definition connect_cancellable (self : nat) (cancellable : GCancellable_ptr)
    : M unit :=
  if negb (cancellable =? NULL) then
    g_cancellable_connect cancellable on_cancellable_cancelled self
  else mret tt.

Definition gsound_context_play_simple (self : nat)
    (cancellable : GCancellable_ptr) (error : GError_loc) (args : va_list)
    : M (bool * GError_loc) :=
  '(res, pl) ← ca_proplist_create None;
  if negb (res =? CA_SUCCESS) then mret (test_return res error)
  else
    var_args_to_prop_list args pl;;
    c ← self_ca self;
    res ← ca_context_play_full c (g_direct_hash cancellable) pl None;
    connect_cancellable self cancellable;;
    clear_proplist pl;;
    mret (test_return res error).

Definition gsound_context_play_simplev (self : nat) (attrs : GHashTable)
    (cancellable : GCancellable_ptr) (error : GError_loc)
    : M (bool * GError_loc) :=
  '(res, pl) ← ca_proplist_create None;
  let '(ok, error) := test_return res error in
  if negb ok then mret (false, error)
  else
    hash_table_to_prop_list attrs pl;;
    c ← self_ca self;
    res ← ca_context_play_full c (g_direct_hash cancellable) pl None;
    connect_cancellable self cancellable;;
    clear_proplist pl;;
    mret (test_return res error).

(** The play functions that notify return [void]; the [GTask] they make
    is the last one of the store. *)
Definition gsound_context_play_full (self : nat)
    (cancellable : GCancellable_ptr) (args : va_list) : M unit :=
  let inner_error : GError_loc := Some None in
  task ← g_task_new self cancellable;
  '(res, proplist) ← ca_proplist_create None;
  let '(ok, inner_error) := test_return res inner_error in
  if negb ok then g_task_return_error task (error_of inner_error)
  else
    var_args_to_prop_list args proplist;;
    c ← self_ca self;
    res ← ca_context_play_full c (g_direct_hash cancellable) proplist
            (Some task);
    connect_cancellable self cancellable;;
    clear_proplist proplist;;
    let '(ok, inner_error) := test_return res inner_error in
    if negb ok then g_task_return_error task (error_of inner_error)
    else mret tt.

Definition gsound_context_play_fullv (self : nat) (attrs : GHashTable)
    (cancellable : GCancellable_ptr) : M unit :=
  let inner_error : GError_loc := Some None in
  task ← g_task_new self cancellable;
  '(res, proplist) ← ca_proplist_create None;
  let '(ok, inner_error) := test_return res inner_error in
  if negb ok then g_task_return_error task (error_of inner_error)
  else
    hash_table_to_prop_list attrs proplist;;
    c ← self_ca self;
    res ← ca_context_play_full c (g_direct_hash cancellable) proplist
            (Some task);
    connect_cancellable self cancellable;;
    clear_proplist proplist;;
    let '(ok, inner_error) := test_return res inner_error in
    if negb ok then g_task_return_error task (error_of inner_error)
    else mret tt.

Definition gsound_context_play_full_finish (self : nat) (result : nat)
    (error : GError_loc) : M (bool * GError_loc) :=
  valid ← g_task_is_valid result self;
  if negb valid then mret (false, error)
  else g_task_propagate_boolean result error.

Definition gsound_context_cache (self : nat) (error : GError_loc)
    (args : va_list) : M (bool * GError_loc) :=
  '(res, pl) ← ca_proplist_create None;
  if negb (res =? CA_SUCCESS) then mret (test_return res error)
  else
    var_args_to_prop_list args pl;;
    c ← self_ca self;
    res ← ca_context_cache_full c pl;
    clear_proplist pl;;
    mret (test_return res error).

Definition gsound_context_cachev (self : nat) (attrs : GHashTable)
    (error : GError_loc) : M (bool * GError_loc) :=
  '(res, proplist) ← ca_proplist_create None;
  let '(ok, error) := test_return res error in
  if negb ok then mret (false, error)
  else
    hash_table_to_prop_list attrs proplist;;
    c ← self_ca self;
    res ← ca_context_cache_full c proplist;
    clear_proplist proplist;;
    mret (test_return res error).

(** The local [pl] is not initialised in C and the status of
    [ca_proplist_create] is dropped; the slot starts as NULL here. *)
Definition gsound_context_real_init (self : nat)
    (cancellable : GCancellable_ptr) (error : GError_loc)
    : M (bool * GError_loc) :=
  c ← self_ca self;
  match c with
  | Some _ => mret (true, error)
  | None =>
      success ← ca_context_create self;
      let '(ok, error) := test_return success error in
      if negb ok then mret (false, error)
      else
        '(_, pl) ← ca_proplist_create None;
        name ← gets application_name;
        ca_proplist_sets pl (Some CA_PROP_APPLICATION_NAME) name;;
        app ← gets default_application;
        match app with
        | Some id => ca_proplist_sets pl (Some CA_PROP_APPLICATION_ID) id;;
                     mret tt
        | None => mret tt
        end;;
        c ← self_ca self;
        success ← ca_context_change_props_full c pl;
        clear_proplist pl;;
        let '(ok, error) := test_return success error in
        (if negb ok then clear_self_ca self else mret tt);;
        mret (true, error)
  end.

Definition gsound_context_finalize (self : nat) : M unit :=
  clear_self_ca self.

(** The caller triggers a cancellation token. *)
Definition cancel (cancellable : GCancellable_ptr) : M unit :=
  g_cancellable_cancel on_cancellable_cancelled cancellable.

End Binding.

(** ** Reading the log *)

Definition is_change_props (c : ca_call) : bool :=
  match c with CaContextChangePropsFull _ _ => true | _ => false end.
Definition is_context_create (c : ca_call) : bool :=
  match c with CaContextCreate => true | _ => false end.
Definition is_context_destroy (c : ca_call) : bool :=
  match c with CaContextDestroy _ => true | _ => false end.
Definition is_proplist_create (c : ca_call) : bool :=
  match c with CaProplistCreate => true | _ => false end.
Definition is_proplist_sets (c : ca_call) : bool :=
  match c with CaProplistSets _ _ _ => true | _ => false end.
Definition is_play (c : ca_call) : bool :=
  match c with CaContextPlayFull _ _ _ _ => true | _ => false end.
Definition is_cache (c : ca_call) : bool :=
  match c with CaContextCacheFull _ _ => true | _ => false end.
Definition is_cancel (c : ca_call) : bool :=
  match c with CaContextCancel _ _ => true | _ => false end.

(** The native entry points that commit or submit a property list. *)
Definition is_submission (c : ca_call) : bool :=
  is_change_props c || is_play c || is_cache c.

(** The statuses returned to the calls that [p] selects. *)
Definition statuses (p : ca_call -> bool) (l : list ca_event) : list Z :=
  map snd (List.filter (fun e => p (fst e)) l).

(** The request tokens handed to [ca_context_play_full] and to
    [ca_context_cancel], and the completion callbacks registered. *)
Definition play_token (e : ca_event) : option Z :=
  match fst e with CaContextPlayFull _ id _ _ => Some id | _ => None end.
Definition cancel_token (e : ca_event) : option Z :=
  match fst e with CaContextCancel _ id => Some id | _ => None end.
Definition play_callback (e : ca_event) : option (option nat) :=
  match fst e with CaContextPlayFull _ _ _ cb => Some cb | _ => None end.

Definition play_tokens (l : list ca_event) : list Z := omap play_token l.
Definition cancel_tokens (l : list ca_event) : list Z := omap cancel_token l.
Definition play_callbacks (l : list ca_event) : list (option nat) :=
  omap play_callback l.

(** Appends events to the log. *)
Definition log_append (evs : list ca_event) (w : world) : world :=
  set_ca_log (fun l => l ++ evs) w.

(** ** Vocabulary of the statements *)

(** The calls of an operation that got its property list [pl]: the
    calls [fill] that set the properties, the commit or submission
    [submit] with its status [r], the calls [after] it, and the
    destruction of the list. *)
Definition submission_log (pl : ca_proplist) (fill : list ca_event)
    (submit : ca_call) (r : Z) (after : list ca_event) (rd : Z)
    : list ca_event :=
  (CaProplistCreate, CA_SUCCESS) :: fill
  ++ (submit, r) :: after ++ [(CaProplistDestroy pl, rd)].

(** The calls [gsound_context_real_init] is about: creation, commit and
    destruction of the handle. *)
Definition is_init_key (c : ca_call) : bool :=
  is_context_create c || is_change_props c || is_context_destroy c.

(** The [GError] made from a native status code. *)
Definition native_error (eng : ca_engine) (code : Z) : GError :=
  {| error_domain := GSOUND_ERROR; error_code := code;
     error_message := ca_strerror eng code |}.

(** [wp m Q w]: run from [w], [m] ends with a result and a state that
    satisfy [Q]. *)
Definition wp {A : Type} (m : M A) (Q : A -> world -> Prop) (w : world) : Prop :=
  Q (eval m w) (exec m w).

(** Logs made of [ca_proplist_sets] calls, and of cancel requests for the
    token of [c]. *)
Definition sets_only (evs : list ca_event) : Prop :=
  Forall (fun e => is_proplist_sets (fst e) = true) evs.

Definition cancels_only (c : GCancellable_ptr) (evs : list ca_event) : Prop :=
  Forall (fun e => cancel_token e = Some (g_direct_hash c)) evs.

(** The [ca_proplist_sets] calls that fill [pl] from a hash table. *)
Definition table_calls (pl : ca_proplist) (attrs : GHashTable) : list ca_call :=
  map (fun kv => CaProplistSets (Some pl) (fst kv) (snd kv)) attrs.

(** The task a play that notifies leaves behind: pending when the
    submission was accepted, failed with the native error otherwise. *)
Definition task_after (eng : ca_engine) (self : nat) (c : GCancellable_ptr)
    (r : Z) : GTask :=
  if r =? CA_SUCCESS then new_task self c
  else returned_error (native_error eng r) (new_task self c).

(** Whether the log shows that the property list was created. *)
Definition got_proplist (l : list ca_event) : bool :=
  bool_decide (statuses is_proplist_create l = [CA_SUCCESS]).

(** The log [l] of an operation on the hash table [attrs]: every entry
    was handed to [ca_proplist_sets], in order, and then [submit] was
    called and returned [r]. *)
Definition table_submitted (attrs : GHashTable)
    (submit : ca_proplist -> ca_call) (r : Z) (l : list ca_event) : Prop :=
  exists pl fill after rd,
    l = submission_log pl fill (submit pl) r after rd
    /\ map fst fill = table_calls pl attrs
    /\ Forall (fun e => is_submission (fst e) = false) after.

(** What a fire-and-forget play shows: its result against the status of
    the submission, and the callbacks it registered. *)
Definition simple_play_ok (res : bool) (l : list ca_event) : Prop :=
  (res = true <-> statuses is_play l = [CA_SUCCESS])
  /\ Forall (fun cb => cb = None) (play_callbacks l).

(** The two ways an operation on a hash table goes, told by its log [l]
    and the native status [r] that decides its result: without a
    property list nothing else is called; with one, the table is handed
    over and [submit] is called. *)
Definition table_op_outcome (attrs : GHashTable)
    (submit : ca_proplist -> ca_call) (l : list ca_event) (r : Z) : Prop :=
  if got_proplist l then table_submitted attrs submit r l
  else r <> CA_SUCCESS /\ l = [(CaProplistCreate, r)].

(** The error [g_task_propagate_boolean] reports for a task whose
    cancellable has been cancelled. *)
Definition cancelled_error : GError :=
  {| error_domain := G_IO_ERROR; error_code := G_IO_ERROR_CANCELLED;
     error_message := "Operation was cancelled" |}.

(** ** Sample engines and states *)

(** The messages of libcanberra's [ca_strerror]. *)
Definition strerror_table (code : Z) : string :=
  match code with
  | 0 => "Success"
  | -1 => "Operation not supported"
  | -2 => "Invalid argument"
  | -3 => "Invalid state"
  | -4 => "Out of memory"
  | -11 => "Canceled"
  | _ => "Unknown error"
  end.

(** An engine that answers [code] to the calls [bad] selects and
    [CA_SUCCESS] to the others. *)
Definition engine_failing (bad : ca_call -> bool) (code : Z) : ca_engine :=
  {| ca_status := fun _ c => if bad c then code else CA_SUCCESS;
     ca_alloc := fun log => length log;
     ca_strerror := strerror_table |}.

Definition engine_ok : ca_engine := engine_failing (fun _ => false) CA_SUCCESS.

(** A process that has set its application name and registered no default
    [GApplication]; no object has been touched yet. *)
Definition world0 : world :=
  {| contexts := ∅; tasks := []; cancellables := ∅; ca_log := [];
     application_name := Some "demo"; default_application := None |}.

(** [world0] after context 0 was initialised by [engine_ok]. *)
Definition world1 : world :=
  exec (gsound_context_real_init engine_ok 0%nat NULL (Some None)) world0.

(** Engines whose [ca_proplist_create], [ca_context_create] or
    [ca_context_change_props_full] runs out of memory. *)
Definition engine_no_proplist : ca_engine :=
  engine_failing is_proplist_create CA_ERROR_OOM.
Definition engine_no_context : ca_engine :=
  engine_failing is_context_create CA_ERROR_OOM.
Definition engine_no_commit : ca_engine :=
  engine_failing is_change_props CA_ERROR_OOM.

(** A variadic list whose key has no value: ["event.id", NULL]. *)
Definition missing_value : va_list := [Some "event.id"; None].

(** A well-formed variadic list and a hash table with the same pair. *)
Definition bell_args : va_list := [Some "event.id"; Some "bell"; None].
Definition bell_attrs : GHashTable := [(Some "event.id", Some "bell")].

(** A cancellable at some address. *)
Definition cancellable1 : GCancellable_ptr := 4096.

(** [world1] after context 0 started an asynchronous play with
    [cancellable1]: task 0 is pending. *)
Definition world_playing : world :=
  exec (gsound_context_play_full engine_ok 0%nat cancellable1 bell_args)
    world1.

(** [world_playing] after the caller triggered [cancellable1] and the
    native engine then ran the completion callback of the play with
    [CA_ERROR_CANCELED]. *)
Definition world_cancelled : world :=
  exec (on_ca_play_full_finished engine_ok (Some 0%nat)
          (g_direct_hash cancellable1) CA_ERROR_CANCELED 0%nat)
    (exec (cancel engine_ok cancellable1) world_playing).

(** ** Reading a variadic list *)

(** The pairs a NULL-terminated variadic list holds before its
    terminator, and whether the list breaks off on a key without a
    value. *)
Fixpoint parse_args (args : va_list) : list (string * string) * bool :=
  match args with
  | [] | None :: _ => ([], false)
  | Some _ :: [] | Some _ :: None :: _ => ([], true)
  | Some key :: Some val :: args' =>
      let (pairs, missing) := parse_args args' in
      ((key, val) :: pairs, missing)
  end.

(** The [ca_proplist_sets] calls that hand [pairs] to [pl]. *)
Definition pair_calls (pl : option ca_proplist) (pairs : list (string * string))
    : list ca_call :=
  map (fun kv => CaProplistSets pl (Some (fst kv)) (Some (snd kv))) pairs.

(** The hash table with the entries [pairs], in that order. *)
Definition table_of (pairs : list (string * string)) : GHashTable :=
  map (fun kv => (Some (fst kv), Some (snd kv))) pairs.

(** What [var_args_to_prop_list] returns as [r] and logs as [l] on a
    list that parses to [pairs]: either every pair was set and accepted,
    or the loop stopped at the first call that failed. *)
Definition var_args_outcome (pl : option ca_proplist)
    (pairs : list (string * string)) (missing : bool) (r : Z)
    (l : list ca_event) : Prop :=
  (map fst l = pair_calls pl pairs
   /\ Forall (fun e => snd e = CA_SUCCESS) l
   /\ r = if missing then CA_ERROR_INVALID else CA_SUCCESS)
  \/ (exists n l0 c,
        (n < length pairs)%nat
        /\ l = l0 ++ [(c, r)]
        /\ map fst l = pair_calls pl (take (S n) pairs)
        /\ Forall (fun e => snd e = CA_SUCCESS) l0
        /\ r <> CA_SUCCESS).

(** An engine that accepts every property. *)
Definition accepts_sets (eng : ca_engine) : Prop :=
  forall log pl key value,
    ca_status eng log (CaProplistSets pl key value) = CA_SUCCESS.

(** ** Reporting *)

(** How a synchronous operation reports, given the error location it was
    handed and the native calls [l] it made: it returns TRUE and leaves
    the location as it was, or it returns FALSE and sets the error made
    from a status, other than [CA_SUCCESS], that one of its native calls
    returned. *)
Definition reports (eng : ca_engine) (error : GError_loc)
    (l : list ca_event) (res : bool * GError_loc) : Prop :=
  res = (true, error)
  \/ exists c r,
       (c, r) ∈ l /\ r <> CA_SUCCESS
       /\ res = (false, g_set_error_literal error GSOUND_ERROR r
                          (ca_strerror eng r)).

(** [m] never changes what [obs] reads off the state. *)
Definition preserves {A B : Type} (obs : world -> B) (m : M A) : Prop :=
  forall w, obs (exec m w) = obs w.

(** ** Construction *)

(** [gsound_context_new (cancellable, error)] is
    [g_initable_new (GSOUND_TYPE_CONTEXT, cancellable, error, NULL)]:
    [g_object_new] makes the object, here at [obj], zero-filled
    ([gsound_context_init] adds nothing, so [ca] is NULL);
    [g_initable_init] runs the [init] that
    [gsound_context_initable_init] installed, which is
    [gsound_context_real_init]; when that fails the object is released,
    which runs the [finalize] that [gsound_context_class_init] installed,
    [gsound_context_finalize], and NULL is returned. *)
Definition gsound_context_new (eng : ca_engine) (obj : nat)
    (cancellable : GCancellable_ptr) (error : GError_loc)
    : M (option nat * GError_loc) :=
  modify (set_contexts <[obj := {| ca := None |}]>);;
  '(ok, error) ← gsound_context_real_init eng obj cancellable error;
  if ok : bool then mret (Some obj, error)
  else
    gsound_context_finalize eng obj;;
    modify (set_contexts (delete obj));;
    mret (None, error).

(** The default attributes [gsound_context_real_init] sets on [pl]: the
    application name, and the application id when the process has a
    default [GApplication]. *)
Definition default_attribute_calls (w : world) (pl : option ca_proplist)
    : list ca_call :=
  CaProplistSets pl (Some CA_PROP_APPLICATION_NAME) (application_name w)
  :: match default_application w with
     | Some id => [CaProplistSets pl (Some CA_PROP_APPLICATION_ID) id]
     | None => []
     end.

(** ** Cancellation listeners *)

(** A cancellable after [g_cancellable_connect] has connected the
    listener of [self] to it. *)
Definition connected (self : nat) (st : GCancellable) : GCancellable :=
  {| cancelled := false; handlers := handlers st ++ [self] |}.

(** The cancel requests of a log: the handle and the token of each. *)
Definition cancel_request (e : ca_event) : option (option ca_context * Z) :=
  match fst e with CaContextCancel h id => Some (h, id) | _ => None end.
Definition cancel_requests (l : list ca_event)
    : list (option ca_context * Z) :=
  omap cancel_request l.

(** What a play function does about the cancellable [c], told by its log
    [l] and its final state [w']: once it has its property list it
    connects the listener of [self] to a live [c], or, when [c] was
    already cancelled, requests the cancellation at once. *)
Definition play_listener (self : nat) (c : GCancellable_ptr) (w : world)
    (l : list ca_event) (w' : world) : Prop :=
  let live := negb (c =? NULL) && negb (cancelled (cancellable_of w c)) in
  let dead := negb (c =? NULL) && cancelled (cancellable_of w c) in
  contexts w' = contexts w
  /\ cancellables w'
     = (if got_proplist l && live
        then <[c := connected self (cancellable_of w c)]> (cancellables w)
        else cancellables w)
  /\ cancel_requests l
     = (if got_proplist l && dead
        then [(ca (context_of w self), g_direct_hash c)] else []).

(** The cancel requests the listeners of the contexts [hs] make for the
    cancellable [c]. *)
Definition listener_requests (w : world) (c : GCancellable_ptr)
    (hs : list nat) : list (option ca_context * Z) :=
  map (fun self => (ca (context_of w self), g_direct_hash c)) hs.

(** ** The answers of the engine *)

(** Every status in [l], a stretch of log that follows [log], is the one
    the engine gives at that point. *)
Fixpoint answered (eng : ca_engine) (log l : list ca_event) : Prop :=
  match l with
  | [] => True
  | e :: l' =>
      snd e = ca_status eng log (fst e) /\ answered eng (log ++ [e]) l'
  end.

(** [m] only appends to the log, and what it appends is what the engine
    answered. *)
Definition faithful (eng : ca_engine) {A : Type} (m : M A) : Prop :=
  forall w, exists l,
    ca_log (exec m w) = ca_log w ++ l /\ answered eng (ca_log w) l.

(** Whether the engine, asked in the state [w], hands out a property
    list. *)
Definition proplist_granted (eng : ca_engine) (w : world) : bool :=
  ca_status eng (ca_log w) CaProplistCreate =? CA_SUCCESS.

(** The native calls [l] of a play function that started in [w], and the
    status [r] that decides its result.  The engine is asked for a
    property list first.  If it refuses, with [r], nothing else is
    called.  If it grants one, the attributes are set, the sound is
    submitted once, on the handle of the context, with the token of the
    cancellable [c] and the completion callback [cb], and [r] is the
    answer of the engine to that submission; only cancel requests for
    the same token may follow before the list is destroyed. *)
Definition play_outcome (eng : ca_engine) (self : nat) (c : GCancellable_ptr)
    (cb : option nat) (w : world) (l : list ca_event) (r : Z) : Prop :=
  answered eng (ca_log w) l
  /\ if proplist_granted eng w
     then exists pl fill after rd,
            let play := CaContextPlayFull (ca (context_of w self))
                          (g_direct_hash c) (Some pl) cb in
            l = submission_log pl fill play r after rd
            /\ sets_only fill /\ cancels_only c after
            /\ r = ca_status eng
                     (ca_log w ++ (CaProplistCreate, CA_SUCCESS) :: fill) play
     else l = [(CaProplistCreate, r)] /\ r <> CA_SUCCESS.

(** The cancel requests that follow when [c] is triggered after a play
    function of the context [self] ran from the state [w]: none for NULL
    or for a cancellable that was cancelled before; otherwise those of
    the listeners connected before, and then, if the play got its
    property list, the request of the listener the play connected. *)
Definition requests_after_play (eng : ca_engine) (self : nat)
    (c : GCancellable_ptr) (w : world) : list (option ca_context * Z) :=
  let st := cancellable_of w c in
  if (c =? NULL) || cancelled st then []
  else listener_requests w c (handlers st)
       ++ (if proplist_granted eng w
           then [(ca (context_of w self), g_direct_hash c)] else []).


(** * Properties *)

(** ** Running a computation *)

Lemma wp_bind {A B : Type} (m : M A) (f : A -> M B) Q w :
  wp m (fun a => wp (f a) Q) w -> wp (m ≫= f) Q w.
Proof.
  unfold wp, eval, exec, mbind, M_bind. now destruct (m w).
Qed.

Lemma wp_ret {A : Type} (a : A) (Q : A -> world -> Prop) w :
  Q a w -> wp (mret a) Q w.
Proof. exact id. Qed.

Lemma wp_gets {A : Type} (f : world -> A) (Q : A -> world -> Prop) w :
  Q (f w) w -> wp (gets f) Q w.
Proof. exact id. Qed.

Lemma wp_modify (f : world -> world) (Q : unit -> world -> Prop) w :
  Q tt (f w) -> wp (modify f) Q w.
Proof. exact id. Qed.

Lemma wp_self_ca (self : nat) (Q : option ca_context -> world -> Prop) w :
  Q (ca (context_of w self)) w -> wp (self_ca self) Q w.
Proof. exact id. Qed.

(** ** The log and the state *)

Lemma log_append_nil (w : world) : log_append [] w = w.
Proof.
  destruct w. unfold log_append, set_ca_log. simpl. now rewrite app_nil_r.
Qed.

Lemma log_append_append (evs1 evs2 : list ca_event) (w : world) :
  log_append evs2 (log_append evs1 w) = log_append (evs1 ++ evs2) w.
Proof.
  unfold log_append, set_ca_log. simpl. now rewrite app_assoc.
Qed.

Lemma set_contexts_log_append f (evs : list ca_event) (w : world) :
  set_contexts f (log_append evs w) = log_append evs (set_contexts f w).
Proof. reflexivity. Qed.

Lemma set_tasks_log_append f (evs : list ca_event) (w : world) :
  set_tasks f (log_append evs w) = log_append evs (set_tasks f w).
Proof. reflexivity. Qed.

Lemma set_cancellables_log_append f (evs : list ca_event) (w : world) :
  set_cancellables f (log_append evs w) = log_append evs (set_cancellables f w).
Proof. reflexivity. Qed.

Lemma new_calls_log_append (w w0 : world) (evs : list ca_event) :
  ca_log w0 = ca_log w -> new_calls w (log_append evs w0) = evs.
Proof.
  intros E. unfold new_calls, log_append. simpl. rewrite E.
  apply drop_app_length.
Qed.

Lemma new_calls_same (w w' : world) :
  ca_log w' = ca_log w -> new_calls w w' = [].
Proof.
  intros E. rewrite <- (log_append_nil w'). now apply new_calls_log_append.
Qed.

Lemma context_of_log_append (evs : list ca_event) (w : world) (self : nat) :
  context_of (log_append evs w) self = context_of w self.
Proof. reflexivity. Qed.

Lemma context_of_insert (w : world) (self : nat) (x : GSoundContext) :
  context_of (set_contexts <[self := x]> w) self = x.
Proof. unfold context_of. simpl. now rewrite lookup_insert_eq. Qed.

(** Brings a state built by successive updates to the form
    [log_append evs w0], where [w0] has the log of the initial state, and
    reads the new calls off it. *)
Ltac merge_log :=
  repeat first
    [ rewrite log_append_append
    | rewrite set_contexts_log_append
    | rewrite set_tasks_log_append
    | rewrite set_cancellables_log_append ];
  repeat rewrite <- app_assoc; cbn [app];
  repeat rewrite new_calls_log_append by reflexivity;
  repeat rewrite new_calls_same by reflexivity.

(** ** The native calls *)

Section Native.

Variable eng : ca_engine.

(** A native call returns some status [r], the one the engine gives for
    the log so far, and is logged with it. *)
Lemma wp_native (c : ca_call) (Q : Z -> world -> Prop) w :
  (forall r, r = ca_status eng (ca_log w) c ->
             Q r (log_append [(c, r)] w)) ->
  wp (native eng c) Q w.
Proof. intros H. now apply H. Qed.

Lemma wp_ca_context_create (self : nat) (Q : Z -> world -> Prop) w :
  (forall h, Q CA_SUCCESS
               (log_append [(CaContextCreate, CA_SUCCESS)]
                  (set_contexts <[self := {| ca := Some h |}]> w))) ->
  (forall r, r <> CA_SUCCESS -> Q r (log_append [(CaContextCreate, r)] w)) ->
  wp (ca_context_create eng self) Q w.
Proof.
  intros Hok Hfail. unfold wp, eval, exec, ca_context_create, native, gets,
    modify, mbind, M_bind, mret, M_ret. simpl.
  destruct (Z.eqb_spec (ca_status eng (ca_log w) CaContextCreate) CA_SUCCESS)
    as [E | E]; simpl.
  - rewrite E. apply Hok.
  - now apply Hfail.
Qed.

Lemma wp_ca_proplist_create (Q : Z * option ca_proplist -> world -> Prop) w :
  (forall h, Q (CA_SUCCESS, Some h)
               (log_append [(CaProplistCreate, CA_SUCCESS)] w)) ->
  (forall r, r <> CA_SUCCESS ->
             Q (r, None) (log_append [(CaProplistCreate, r)] w)) ->
  wp (ca_proplist_create eng None) Q w.
Proof.
  intros Hok Hfail. unfold wp, eval, exec, ca_proplist_create, native, gets,
    mbind, M_bind, mret, M_ret. simpl.
  destruct (Z.eqb_spec (ca_status eng (ca_log w) CaProplistCreate) CA_SUCCESS)
    as [E | E]; simpl.
  - rewrite E. apply Hok.
  - now apply Hfail.
Qed.

Lemma test_return_success (error : GError_loc) :
  test_return eng CA_SUCCESS error = (true, error).
Proof. reflexivity. Qed.

Lemma test_return_failure (code : Z) (error : GError_loc) :
  code <> CA_SUCCESS ->
  test_return eng code error
  = (false, g_set_error_literal error GSOUND_ERROR code
              (ca_strerror eng code)).
Proof.
  intros H. unfold test_return.
  destruct (Z.eqb_spec code CA_SUCCESS); congruence.
Qed.

End Native.

Ltac wp_step :=
  lazymatch goal with
  | |- wp (_ ≫= _) _ _ => apply wp_bind
  | |- wp (mret _) _ _ => apply wp_ret
  | |- wp (gets _) _ _ => apply wp_gets
  | |- wp (modify _) _ _ => apply wp_modify
  | |- wp (self_ca _) _ _ => apply wp_self_ca
  | |- wp (native _ _) _ _ =>
      let r := fresh "r" in
      apply wp_native; intros r _
  | |- wp (ca_proplist_sets _ _ _ _) _ _ => unfold ca_proplist_sets
  | |- wp (ca_context_change_props_full _ _ _) _ _ =>
      unfold ca_context_change_props_full
  | |- wp (ca_context_play_full _ _ _ _ _) _ _ => unfold ca_context_play_full
  | |- wp (ca_context_cache_full _ _ _) _ _ => unfold ca_context_cache_full
  | |- wp (ca_context_cancel _ _ _) _ _ => unfold ca_context_cancel
  | |- wp (ca_context_open _ _) _ _ => unfold ca_context_open
  | |- wp (ca_context_set_driver _ _ _) _ _ => unfold ca_context_set_driver
  | |- wp (clear_proplist _ (Some _)) _ _ => unfold clear_proplist
  | |- wp (clear_proplist _ None) _ _ => unfold clear_proplist
  | |- wp (set_self_ca _ _) _ _ => unfold set_self_ca
  | |- wp (ca_context_create _ _) _ _ =>
      let h := fresh "h" in let r := fresh "r" in let Hr := fresh "Hr" in
      apply wp_ca_context_create; [intros h | intros r Hr]
  | |- wp (ca_proplist_create _ None) _ _ =>
      let h := fresh "pl" in let r := fresh "r" in let Hr := fresh "Hr" in
      apply wp_ca_proplist_create; [intros h | intros r Hr]
  | |- wp (let '(_, _) := test_return _ CA_SUCCESS _ in _) _ _ =>
      rewrite test_return_success
  | |- wp (if negb true then _ else _) _ _ => cbn [negb]
  | |- wp (if negb false then _ else _) _ _ => cbn [negb]
  | |- wp (match Some _ with Some _ => _ | None => _ end) _ _ => cbv beta iota
  | |- wp (match @None _ with Some _ => _ | None => _ end) _ _ => cbv beta iota
  end.

(** ** Reading statuses off a log *)

Lemma statuses_app (p : ca_call -> bool) (l1 l2 : list ca_event) :
  statuses p (l1 ++ l2) = statuses p l1 ++ statuses p l2.
Proof.
  unfold statuses. now rewrite List.filter_app, map_app.
Qed.

Lemma statuses_cons (p : ca_call -> bool) (c : ca_call) (r : Z)
    (l : list ca_event) :
  statuses p ((c, r) :: l) = if p c then r :: statuses p l else statuses p l.
Proof.
  unfold statuses. simpl. now destruct (p c).
Qed.

(** Calls that [q] rejects return no status to a selector [p] below [q]. *)
Lemma statuses_none (p q : ca_call -> bool) (l : list ca_event) :
  (forall c, p c = true -> q c = true) ->
  Forall (fun e => q (fst e) = false) l ->
  statuses p l = [].
Proof.
  intros Hpq Hl. induction Hl as [| [c r] l Hc _ IH]; [reflexivity |].
  rewrite statuses_cons, IH. simpl in Hc.
  destruct (p c) eqn:E; [| reflexivity].
  apply Hpq in E. congruence.
Qed.

(** ** Initialisation *)

Section Init.

Variable eng : ca_engine.

Lemma wp_clear_self_ca (self : nat) (Q : unit -> world -> Prop) w :
  match ca (context_of w self) with
  | Some h =>
      forall r, Q tt (log_append [(CaContextDestroy h, r)]
                        (set_contexts <[self := {| ca := None |}]> w))
  | None => Q tt w
  end ->
  wp (clear_self_ca eng self) Q w.
Proof.
  intros H. unfold clear_self_ca. wp_step. wp_step.
  destruct (ca (context_of w self)); [| now wp_step].
  repeat wp_step. apply H.
Qed.

(** The three ways through [gsound_context_real_init] for a context
    without a handle: creation fails; the defaults are committed; the
    commit fails. *)
Lemma wp_real_init (self : nat) (c : GCancellable_ptr) (error : GError_loc)
    (Q : bool * GError_loc -> world -> Prop) w :
  ca (context_of w self) = None ->
  (forall r, r <> CA_SUCCESS ->
     Q (false, g_set_error_literal error GSOUND_ERROR r (ca_strerror eng r))
       (log_append [(CaContextCreate, r)] w)) ->
  (forall h pl evs rest,
     Forall (fun e => is_init_key (fst e) = false) evs ->
     Forall (fun e => is_init_key (fst e) = false) rest ->
     Q (true, error)
       (log_append
          ((CaContextCreate, CA_SUCCESS) :: evs
           ++ (CaContextChangePropsFull (Some h) pl, CA_SUCCESS) :: rest)
          (set_contexts <[self := {| ca := Some h |}]> w))) ->
  (forall h pl evs r rest rd,
     r <> CA_SUCCESS ->
     Forall (fun e => is_init_key (fst e) = false) evs ->
     Forall (fun e => is_init_key (fst e) = false) rest ->
     Q (true, g_set_error_literal error GSOUND_ERROR r (ca_strerror eng r))
       (log_append
          ((CaContextCreate, CA_SUCCESS) :: evs
           ++ (CaContextChangePropsFull (Some h) pl, r) :: rest
           ++ [(CaContextDestroy h, rd)])
          (set_contexts <[self := {| ca := None |}]>
             (set_contexts <[self := {| ca := Some h |}]> w)))) ->
  wp (gsound_context_real_init eng self c error) Q w.
Proof.
  intros Hca Hcreate Hok Hfail. unfold gsound_context_real_init.
  wp_step. wp_step. rewrite Hca. wp_step. wp_step. wp_step.
  2:{ rewrite test_return_failure by assumption. repeat wp_step.
      now apply Hcreate. }
  all: do 10 wp_step;
    cbn [default_application log_append set_ca_log set_contexts];
    destruct (default_application w);
    repeat wp_step;
    rewrite !context_of_log_append, context_of_insert; cbn [ca];
    match goal with
    | |- wp (let '(_, _) := test_return _ ?r _ in _) _ _ =>
        destruct (Z.eq_dec r CA_SUCCESS) as [-> | Hr'];
        [ rewrite test_return_success
        | rewrite test_return_failure by assumption ]
    end;
    repeat wp_step;
    try (apply wp_clear_self_ca;
         rewrite !context_of_log_append, context_of_insert; cbn [ca];
         intros rd; repeat wp_step);
    merge_log.
  all: first
    [ eapply (Hok _ _ [_; _])
    | eapply (Hok _ _ [_; _; _])
    | eapply (Hfail _ _ [_; _] _ [])
    | eapply (Hfail _ _ [_; _] _ [_])
    | eapply (Hfail _ _ [_; _; _] _ [])
    | eapply (Hfail _ _ [_; _; _] _ [_]) ];
    try assumption; repeat constructor.
Qed.

(** An initialised context: the call returns at once. *)
Lemma real_init_live (w : world) (self : nat) (c : GCancellable_ptr)
    (error : GError_loc) (h : ca_context) :
  ca (context_of w self) = Some h ->
  gsound_context_real_init eng self c error w = ((true, error), w).
Proof.
  intros H. unfold gsound_context_real_init, self_ca, gets, mbind, M_bind.
  now rewrite H.
Qed.

(** C4. Initialisation is idempotent: on a context that holds a live
    engine handle, [gsound_context_real_init] returns TRUE at once; it
    leaves the error location and the whole state as they were and makes
    no native call, so no second handle is created. *)
Theorem init_idempotent (w : world) (self : nat) (c : GCancellable_ptr)
    (error : GError_loc) (h : ca_context) :
  ca (context_of w self) = Some h ->
  gsound_context_real_init eng self c error w = ((true, error), w)
  /\ new_calls w (exec (gsound_context_real_init eng self c error) w) = [].
Proof.
  intros H. unfold exec. rewrite (real_init_live _ _ _ _ _ H).
  split; [reflexivity |]. now apply new_calls_same.
Qed.

(** C9. When [ca_context_create] fails with status [code],
    [gsound_context_real_init] returns FALSE, the error location gets
    the error of domain [GSOUND_ERROR] with that code and the message
    [ca_strerror] gives for it, no other native call is made, and the
    context keeps no handle. *)
Theorem init_create_failure (w : world) (self : nat) (c : GCancellable_ptr)
    (error : GError_loc) (code : Z) :
  ca (context_of w self) = None ->
  let w' := exec (gsound_context_real_init eng self c error) w in
  statuses is_context_create (new_calls w w') = [code] ->
  code <> CA_SUCCESS ->
  eval (gsound_context_real_init eng self c error) w
  = (false, g_set_error_literal error GSOUND_ERROR code
              (ca_strerror eng code))
  /\ new_calls w w' = [(CaContextCreate, code)]
  /\ contexts w' = contexts w
  /\ ca (context_of w' self) = None.
Proof.
  intros Hca w'. subst w'.
  apply (wp_real_init self c error (fun res w' =>
    statuses is_context_create (new_calls w w') = [code] ->
    code <> CA_SUCCESS ->
    res = (false, g_set_error_literal error GSOUND_ERROR code
                    (ca_strerror eng code))
    /\ new_calls w w' = [(CaContextCreate, code)]
    /\ contexts w' = contexts w
    /\ ca (context_of w' self) = None) w Hca).
  - intros r _. merge_log. cbn. intros [= ->] _.
    rewrite context_of_log_append. easy.
  - intros h pl evs rest _ _. merge_log. rewrite statuses_cons.
    cbn [is_context_create]. intros [= <-]. congruence.
  - intros h pl evs r rest rd _ _ _. merge_log. rewrite statuses_cons.
    cbn [is_context_create]. intros [= <-]. congruence.
Qed.

(** What the log of a run says when the handle was created and the
    commit of the defaults returned [code]. *)
Lemma real_init_commit_failure (w : world) (self : nat)
    (c : GCancellable_ptr) (error : GError_loc) (code : Z) :
  ca (context_of w self) = None ->
  let w' := exec (gsound_context_real_init eng self c error) w in
  statuses is_context_create (new_calls w w') = [CA_SUCCESS] ->
  statuses is_change_props (new_calls w w') = [code] ->
  code <> CA_SUCCESS ->
  eval (gsound_context_real_init eng self c error) w
  = (true, g_set_error_literal error GSOUND_ERROR code
             (ca_strerror eng code))
  /\ ca (context_of w' self) = None
  /\ exists h pl rd,
       (CaContextChangePropsFull (Some h) pl, code) ∈ new_calls w w'
       /\ last (new_calls w w') = Some (CaContextDestroy h, rd).
Proof.
  intros Hca w'. subst w'.
  assert (Hkey : forall p l, (forall c0, p c0 = true -> is_init_key c0 = true) ->
             Forall (fun e : ca_event => is_init_key (fst e) = false) l ->
             statuses p l = []) by (intros; eapply statuses_none; eauto).
  assert (Hprops : forall c0, is_change_props c0 = true -> is_init_key c0 = true)
    by (intros c0 E; unfold is_init_key; rewrite E; now destruct (is_context_create c0)).
  apply (wp_real_init self c error (fun res w' =>
    statuses is_context_create (new_calls w w') = [CA_SUCCESS] ->
    statuses is_change_props (new_calls w w') = [code] ->
    code <> CA_SUCCESS ->
    res = (true, g_set_error_literal error GSOUND_ERROR code
                   (ca_strerror eng code))
    /\ ca (context_of w' self) = None
    /\ exists h pl rd,
         (CaContextChangePropsFull (Some h) pl, code) ∈ new_calls w w'
         /\ last (new_calls w w') = Some (CaContextDestroy h, rd)) w Hca).
  - intros r Hr. merge_log. cbn. intros [= ->]. congruence.
  - intros h pl evs rest Hevs Hrest. merge_log. intros _.
    rewrite statuses_cons, statuses_app, statuses_cons.
    cbn [is_change_props]. rewrite (Hkey _ _ Hprops Hevs),
      (Hkey _ _ Hprops Hrest). cbn. intros [= <-]. congruence.
  - intros h pl evs r rest rd Hr Hevs Hrest. merge_log. intros _.
    rewrite statuses_cons, statuses_app, statuses_cons, statuses_app.
    cbn [is_change_props]. rewrite (Hkey _ _ Hprops Hevs),
      (Hkey _ _ Hprops Hrest). cbn. intros [= <-] _.
    split; [reflexivity |]. split.
    + now rewrite context_of_log_append, context_of_insert.
    + exists h, pl, rd. split.
      * apply elem_of_cons. right. apply elem_of_app. right.
        apply elem_of_cons. now left.
      * change ((CaContextCreate, CA_SUCCESS) :: evs ++
                (CaContextChangePropsFull (Some h) pl, r) :: rest ++
                [(CaContextDestroy h, rd)])
          with (((CaContextCreate, CA_SUCCESS) :: evs) ++
                ((CaContextChangePropsFull (Some h) pl, r) :: rest) ++
                [(CaContextDestroy h, rd)]).
        rewrite !app_assoc. apply last_snoc.
Qed.

(** C3. When the handle was created and the commit of the default
    attributes then fails, [gsound_context_real_init] destroys the
    handle it has just created and still returns TRUE: after a
    successful return the context may hold no engine handle. *)
Theorem init_success_without_handle (w : world) (self : nat)
    (c : GCancellable_ptr) (error : GError_loc) (code : Z) :
  ca (context_of w self) = None ->
  let w' := exec (gsound_context_real_init eng self c error) w in
  statuses is_context_create (new_calls w w') = [CA_SUCCESS] ->
  statuses is_change_props (new_calls w w') = [code] ->
  code <> CA_SUCCESS ->
  fst (eval (gsound_context_real_init eng self c error) w) = true
  /\ ca (context_of w' self) = None
  /\ exists h pl rd,
       (CaContextChangePropsFull (Some h) pl, code) ∈ new_calls w w'
       /\ last (new_calls w w') = Some (CaContextDestroy h, rd).
Proof.
  intros Hca w' Hcreate Hcommit Hcode.
  destruct (real_init_commit_failure w self c error code Hca Hcreate
              Hcommit Hcode) as (Hres & Hnone & Hlog).
  rewrite Hres. auto.
Qed.

End Init.

(** ** Building the property list *)

Section Proplist.

Variable eng : ca_engine.

(** [hash_table_to_prop_list] makes one [ca_proplist_sets] call per
    entry, in iteration order, whatever the calls return. *)
Lemma wp_hash_table_to_prop_list (ht : GHashTable) (pl : option ca_proplist)
    (Q : unit -> world -> Prop) w :
  (forall evs,
     map fst evs = map (fun kv => CaProplistSets pl (fst kv) (snd kv)) ht ->
     Q tt (log_append evs w)) ->
  wp (hash_table_to_prop_list eng ht pl) Q w.
Proof.
  revert Q w. induction ht as [| [key value] ht IH]; intros Q w H.
  - cbn [hash_table_to_prop_list]. wp_step.
    rewrite <- (log_append_nil w). now apply H.
  - cbn [hash_table_to_prop_list]. repeat wp_step.
    apply IH. intros evs Hevs. merge_log.
    apply H. cbn. now rewrite Hevs.
Qed.

(** [var_args_to_prop_list] makes [ca_proplist_sets] calls only. *)
Lemma wp_var_args_to_prop_list (args : va_list) (pl : option ca_proplist)
    (Q : Z -> world -> Prop) w :
  (forall r evs,
     Forall (fun e => is_proplist_sets (fst e) = true) evs ->
     Q r (log_append evs w)) ->
  wp (var_args_to_prop_list eng args pl) Q w.
Proof.
  remember (length args) as n eqn:Hn.
  assert (Hle : (length args <= n)%nat) by lia. clear Hn.
  revert args Hle Q w. induction n as [| n IH]; intros args Hle Q w H.
  - destruct args; [| simpl in Hle; lia].
    cbn [var_args_to_prop_list]. wp_step.
    rewrite <- (log_append_nil w). now apply H.
  - assert (Hnil : Q CA_SUCCESS w /\ Q CA_ERROR_INVALID w).
    { rewrite <- (log_append_nil w). split; now apply H. }
    destruct args as [| [key |] [| [val |] args]];
      cbn [var_args_to_prop_list]; try (wp_step; apply Hnil).
    repeat wp_step.
    destruct (negb (r =? CA_SUCCESS)).
    + wp_step. apply H. now repeat constructor.
    + apply IH; [simpl in Hle; lia |].
      intros r' evs Hevs. merge_log. apply H. now constructor.
Qed.

Lemma sets_of_hash_table (ht : GHashTable) (pl : option ca_proplist)
    (evs : list ca_event) :
  map fst evs = map (fun kv => CaProplistSets pl (fst kv) (snd kv)) ht ->
  Forall (fun e => is_proplist_sets (fst e) = true) evs.
Proof.
  revert ht. induction evs as [| e evs IH]; intros [| kv ht] H;
    try discriminate; constructor.
  - injection H as -> _. reflexivity.
  - injection H as _ H. eauto.
Qed.

End Proplist.

(** ** Cancellation listeners *)

Section Cancel.

Variable eng : ca_engine.

(** The listener makes one native call: a cancel request for the token
    of its cancellable. *)
Lemma wp_on_cancellable_cancelled (c : GCancellable_ptr) (self : nat)
    (Q : unit -> world -> Prop) w :
  (forall r, Q tt (log_append
                     [(CaContextCancel (ca (context_of w self))
                         (g_direct_hash c), r)] w)) ->
  wp (on_cancellable_cancelled eng c self) Q w.
Proof.
  intros H. unfold on_cancellable_cancelled. repeat wp_step. apply H.
Qed.

Lemma set_cancellables_id (w : world) : set_cancellables id w = w.
Proof. now destruct w. Qed.

(** Connecting the listener either records it or, on a cancellable that
    was already cancelled, runs it at once. *)
Lemma wp_connect_cancellable (self : nat) (c : GCancellable_ptr)
    (Q : unit -> world -> Prop) w :
  (forall evs f,
     Forall (fun e => cancel_token e = Some (g_direct_hash c)) evs ->
     Q tt (log_append evs (set_cancellables f w))) ->
  wp (connect_cancellable eng self c) Q w.
Proof.
  intros H. unfold connect_cancellable.
  destruct (negb (c =? NULL)).
  - unfold g_cancellable_connect. repeat wp_step.
    destruct (cancelled (cancellable_of w c)).
    + apply wp_on_cancellable_cancelled. intros r.
      rewrite <- (set_cancellables_id w) at 2.
      apply H. now repeat constructor.
    + wp_step. rewrite <- (log_append_nil (set_cancellables _ w)).
      now apply H.
  - wp_step. rewrite <- (set_cancellables_id w), <- (log_append_nil _).
    now apply H.
Qed.

End Cancel.

(** ** The operations that submit a property list *)

Section Submit.

Variable eng : ca_engine.

Lemma update_last_task (ts : list GTask) (t : GTask) (f : GTask -> GTask) :
  match (ts ++ [t]) !! length ts with
  | Some t' => <[length ts := f t']> (ts ++ [t])
  | None => ts ++ [t]
  end = ts ++ [f t].
Proof.
  rewrite lookup_app_r by lia. rewrite Nat.sub_diag. cbn.
  rewrite insert_app_r_alt by lia. now rewrite Nat.sub_diag.
Qed.

Lemma wp_return_error_last (w : world) (ts : list GTask) (t : GTask)
    (e : GError) (Q : unit -> world -> Prop) :
  tasks w = ts ++ [t] ->
  (forall w', ca_log w' = ca_log w ->
              tasks w' = ts ++ [returned_error e t] -> Q tt w') ->
  wp (g_task_return_error (length ts) (Some e)) Q w.
Proof.
  intros Ht H. unfold g_task_return_error, update_task. wp_step.
  apply H; [reflexivity |]. cbn. rewrite Ht. apply update_last_task.
Qed.

Lemma negb_eqb_success_false : negb (CA_SUCCESS =? CA_SUCCESS) = false.
Proof. reflexivity. Qed.

Lemma negb_eqb_success_true (r : Z) :
  r <> CA_SUCCESS -> negb (r =? CA_SUCCESS) = true.
Proof. intros H. now destruct (Z.eqb_spec r CA_SUCCESS). Qed.

Lemma wp_play_simple (self : nat) (c : GCancellable_ptr)
    (error : GError_loc) (args : va_list)
    (Q : bool * GError_loc -> world -> Prop) w :
  (forall r w', r <> CA_SUCCESS ->
     new_calls w w' = [(CaProplistCreate, r)] ->
     tasks w' = tasks w ->
     Q (test_return eng r error) w') ->
  (forall pl fill r after rd w',
     sets_only fill -> cancels_only c after ->
     new_calls w w'
     = submission_log pl fill
         (CaContextPlayFull (ca (context_of w self)) (g_direct_hash c)
            (Some pl) None) r after rd ->
     tasks w' = tasks w ->
     Q (test_return eng r error) w') ->
  wp (gsound_context_play_simple eng self c error args) Q w.
Proof.
  intros Hfail Hok. unfold gsound_context_play_simple.
  wp_step. wp_step.
  2:{ rewrite negb_eqb_success_true by assumption. wp_step.
      apply Hfail; [assumption | now merge_log | reflexivity]. }
  rewrite negb_eqb_success_false. wp_step.
  apply wp_var_args_to_prop_list. intros _ fill Hfill.
  repeat wp_step. apply wp_connect_cancellable. intros after f Hafter.
  repeat wp_step.
  apply (Hok pl fill r after r0); try assumption; [| reflexivity].
  now merge_log.
Qed.

Lemma wp_play_simplev (self : nat) (attrs : GHashTable)
    (c : GCancellable_ptr) (error : GError_loc)
    (Q : bool * GError_loc -> world -> Prop) w :
  (forall r w', r <> CA_SUCCESS ->
     new_calls w w' = [(CaProplistCreate, r)] ->
     tasks w' = tasks w ->
     Q (test_return eng r error) w') ->
  (forall pl fill r after rd w',
     map fst fill = table_calls pl attrs -> cancels_only c after ->
     new_calls w w'
     = submission_log pl fill
         (CaContextPlayFull (ca (context_of w self)) (g_direct_hash c)
            (Some pl) None) r after rd ->
     tasks w' = tasks w ->
     Q (test_return eng r error) w') ->
  wp (gsound_context_play_simplev eng self attrs c error) Q w.
Proof.
  intros Hfail Hok. unfold gsound_context_play_simplev.
  wp_step. wp_step.
  2:{ specialize (Hfail r). rewrite test_return_failure in * by assumption.
      repeat wp_step. apply Hfail; [assumption | now merge_log | reflexivity]. }
  repeat wp_step.
  apply wp_hash_table_to_prop_list. intros fill Hfill.
  repeat wp_step. apply wp_connect_cancellable. intros after f Hafter.
  repeat wp_step.
  apply (Hok pl fill r after r0); try assumption; [| reflexivity].
  now merge_log.
Qed.

Lemma wp_change_attrsv (self : nat) (attrs : GHashTable)
    (error : GError_loc) (Q : bool * GError_loc -> world -> Prop) w :
  (forall r w', r <> CA_SUCCESS ->
     new_calls w w' = [(CaProplistCreate, r)] ->
     Q (test_return eng r error) w') ->
  (forall pl fill r rd w',
     map fst fill = table_calls pl attrs ->
     new_calls w w'
     = submission_log pl fill
         (CaContextChangePropsFull (ca (context_of w self)) (Some pl))
         r [] rd ->
     Q (test_return eng r error) w') ->
  wp (gsound_context_change_attrsv eng self attrs error) Q w.
Proof.
  intros Hfail Hok. unfold gsound_context_change_attrsv.
  wp_step. wp_step.
  2:{ specialize (Hfail r). rewrite test_return_failure in * by assumption.
      repeat wp_step. apply Hfail; [assumption |]. now merge_log. }
  repeat wp_step.
  apply wp_hash_table_to_prop_list. intros fill Hfill.
  repeat wp_step.
  apply (Hok pl fill r r0); try assumption.
  now merge_log.
Qed.

Lemma wp_cachev (self : nat) (attrs : GHashTable)
    (error : GError_loc) (Q : bool * GError_loc -> world -> Prop) w :
  (forall r w', r <> CA_SUCCESS ->
     new_calls w w' = [(CaProplistCreate, r)] ->
     Q (test_return eng r error) w') ->
  (forall pl fill r rd w',
     map fst fill = table_calls pl attrs ->
     new_calls w w'
     = submission_log pl fill
         (CaContextCacheFull (ca (context_of w self)) (Some pl)) r [] rd ->
     Q (test_return eng r error) w') ->
  wp (gsound_context_cachev eng self attrs error) Q w.
Proof.
  intros Hfail Hok. unfold gsound_context_cachev.
  wp_step. wp_step.
  2:{ specialize (Hfail r). rewrite test_return_failure in * by assumption.
      repeat wp_step. apply Hfail; [assumption |]. now merge_log. }
  repeat wp_step.
  apply wp_hash_table_to_prop_list. intros fill Hfill.
  repeat wp_step.
  apply (Hok pl fill r r0); try assumption.
  now merge_log.
Qed.

Lemma wp_g_task_new (source : nat) (c : GCancellable_ptr)
    (Q : nat -> world -> Prop) w :
  Q (length (tasks w))
    (set_tasks (fun ts => ts ++ [new_task source c]) w) ->
  wp (g_task_new source c) Q w.
Proof. exact id. Qed.

Lemma task_after_failure (self : nat) (c : GCancellable_ptr) (r : Z) :
  r <> CA_SUCCESS ->
  task_after eng self c r
  = returned_error (native_error eng r) (new_task self c).
Proof.
  intros H. unfold task_after. now destruct (Z.eqb_spec r CA_SUCCESS).
Qed.

Lemma wp_task_after (self : nat) (c : GCancellable_ptr) (r : Z)
    (Q : unit -> world -> Prop) (w0 w : world) :
  tasks w = tasks w0 ++ [new_task self c] ->
  (forall w', ca_log w' = ca_log w ->
              tasks w' = tasks w0 ++ [task_after eng self c r] -> Q tt w') ->
  wp (let '(ok, inner_error) := test_return eng r (Some None) in
      if negb ok
      then g_task_return_error (length (tasks w0)) (error_of inner_error)
      else mret tt) Q w.
Proof.
  intros Ht H. unfold task_after in H.
  destruct (Z.eqb_spec r CA_SUCCESS) as [-> | Hr].
  - rewrite test_return_success. repeat wp_step. now apply H.
  - rewrite test_return_failure by assumption. cbn [negb g_set_error_literal error_of].
    eapply wp_return_error_last; [eassumption |]. exact H.
Qed.

Lemma wp_play_full (self : nat) (c : GCancellable_ptr) (args : va_list)
    (Q : unit -> world -> Prop) w :
  (forall r w', r <> CA_SUCCESS ->
     new_calls w w' = [(CaProplistCreate, r)] ->
     tasks w' = tasks w ++ [task_after eng self c r] ->
     Q tt w') ->
  (forall pl fill r after rd w',
     sets_only fill -> cancels_only c after ->
     new_calls w w'
     = submission_log pl fill
         (CaContextPlayFull (ca (context_of w self)) (g_direct_hash c)
            (Some pl) (Some (length (tasks w)))) r after rd ->
     tasks w' = tasks w ++ [task_after eng self c r] ->
     Q tt w') ->
  wp (gsound_context_play_full eng self c args) Q w.
Proof.
  intros Hfail Hok. unfold gsound_context_play_full.
  wp_step. apply wp_g_task_new. wp_step. wp_step.
  2:{ rewrite test_return_failure by assumption.
      cbn [negb g_set_error_literal error_of].
      eapply wp_return_error_last; [reflexivity |].
      intros w' Hlog Htasks. apply (Hfail r); try assumption.
      - unfold new_calls. rewrite Hlog. cbn. apply drop_app_length.
      - now rewrite task_after_failure. }
  rewrite test_return_success. cbn [negb]. wp_step.
  apply wp_var_args_to_prop_list. intros _ fill Hfill.
  repeat wp_step. apply wp_connect_cancellable. intros after f Hafter.
  repeat wp_step.
  apply (wp_task_after self c r _ w); [reflexivity |].
  intros w' Hlog Htasks. apply (Hok pl fill r after r0); try assumption.
  unfold new_calls. rewrite Hlog.
  match goal with |- drop _ (ca_log ?W) = _ => change (new_calls w W = submission_log pl fill
         (CaContextPlayFull (ca (context_of w self)) (g_direct_hash c)
            (Some pl) (Some (length (tasks w)))) r after r0) end.
  now merge_log.
Qed.

Lemma wp_play_fullv (self : nat) (attrs : GHashTable) (c : GCancellable_ptr)
    (Q : unit -> world -> Prop) w :
  (forall r w', r <> CA_SUCCESS ->
     new_calls w w' = [(CaProplistCreate, r)] ->
     tasks w' = tasks w ++ [task_after eng self c r] ->
     Q tt w') ->
  (forall pl fill r after rd w',
     map fst fill = table_calls pl attrs -> cancels_only c after ->
     new_calls w w'
     = submission_log pl fill
         (CaContextPlayFull (ca (context_of w self)) (g_direct_hash c)
            (Some pl) (Some (length (tasks w)))) r after rd ->
     tasks w' = tasks w ++ [task_after eng self c r] ->
     Q tt w') ->
  wp (gsound_context_play_fullv eng self attrs c) Q w.
Proof.
  intros Hfail Hok. unfold gsound_context_play_fullv.
  wp_step. apply wp_g_task_new. wp_step. wp_step.
  2:{ rewrite test_return_failure by assumption.
      cbn [negb g_set_error_literal error_of].
      eapply wp_return_error_last; [reflexivity |].
      intros w' Hlog Htasks. apply (Hfail r); try assumption.
      - unfold new_calls. rewrite Hlog. cbn. apply drop_app_length.
      - now rewrite task_after_failure. }
  rewrite test_return_success. cbn [negb]. wp_step.
  apply wp_hash_table_to_prop_list. intros fill Hfill.
  repeat wp_step. apply wp_connect_cancellable. intros after f Hafter.
  repeat wp_step.
  apply (wp_task_after self c r _ w); [reflexivity |].
  intros w' Hlog Htasks. apply (Hok pl fill r after r0); try assumption.
  unfold new_calls. rewrite Hlog.
  match goal with |- drop _ (ca_log ?W) = _ => change (new_calls w W = submission_log pl fill
         (CaContextPlayFull (ca (context_of w self)) (g_direct_hash c)
            (Some pl) (Some (length (tasks w)))) r after r0) end.
  now merge_log.
Qed.

Lemma wp_change_attrs (self : nat) (error : GError_loc) (args : va_list)
    (Q : bool * GError_loc -> world -> Prop) w :
  (forall r w', r <> CA_SUCCESS ->
     new_calls w w' = [(CaProplistCreate, r)] ->
     Q (test_return eng r error) w') ->
  (forall pl fill r rd w',
     sets_only fill ->
     new_calls w w'
     = submission_log pl fill
         (CaContextChangePropsFull (ca (context_of w self)) (Some pl))
         r [] rd ->
     Q (test_return eng r error) w') ->
  wp (gsound_context_change_attrs eng self error args) Q w.
Proof.
  intros Hfail Hok. unfold gsound_context_change_attrs.
  wp_step. wp_step.
  2:{ rewrite negb_eqb_success_true by assumption. wp_step.
      apply Hfail; [assumption |]. now merge_log. }
  rewrite negb_eqb_success_false. wp_step.
  apply wp_var_args_to_prop_list. intros _ fill Hfill.
  repeat wp_step.
  apply (Hok pl fill r r0); try assumption.
  now merge_log.
Qed.

Lemma wp_cache (self : nat) (error : GError_loc) (args : va_list)
    (Q : bool * GError_loc -> world -> Prop) w :
  (forall r w', r <> CA_SUCCESS ->
     new_calls w w' = [(CaProplistCreate, r)] ->
     Q (test_return eng r error) w') ->
  (forall pl fill r rd w',
     sets_only fill ->
     new_calls w w'
     = submission_log pl fill
         (CaContextCacheFull (ca (context_of w self)) (Some pl)) r [] rd ->
     Q (test_return eng r error) w') ->
  wp (gsound_context_cache eng self error args) Q w.
Proof.
  intros Hfail Hok. unfold gsound_context_cache.
  wp_step. wp_step.
  2:{ rewrite negb_eqb_success_true by assumption. wp_step.
      apply Hfail; [assumption |]. now merge_log. }
  rewrite negb_eqb_success_false. wp_step.
  apply wp_var_args_to_prop_list. intros _ fill Hfill.
  repeat wp_step.
  apply (Hok pl fill r r0); try assumption.
  now merge_log.
Qed.

End Submit.

(** ** What the log of a submission shows *)

Section Observers.

Lemma statuses_false (p : ca_call -> bool) (l : list ca_event) :
  Forall (fun e => p (fst e) = false) l -> statuses p l = [].
Proof. apply statuses_none. auto. Qed.

Lemma omap_nothing {B : Type} (obs : ca_event -> option B)
    (l : list ca_event) :
  Forall (fun e => obs e = None) l -> omap obs l = [].
Proof.
  induction 1 as [| e l He _ IH]; [reflexivity |].
  cbn. now rewrite He, IH.
Qed.

Lemma sets_only_quiet (p : ca_call -> bool) (l : list ca_event) :
  (forall pl k v, p (CaProplistSets pl k v) = false) ->
  sets_only l -> Forall (fun e => p (fst e) = false) l.
Proof.
  intros Hp H. eapply Forall_impl; [exact H |].
  intros [[] r0] H0; try discriminate. apply Hp.
Qed.

Lemma cancels_only_quiet (p : ca_call -> bool) (c : GCancellable_ptr)
    (l : list ca_event) :
  (forall h id, p (CaContextCancel h id) = false) ->
  cancels_only c l -> Forall (fun e => p (fst e) = false) l.
Proof.
  intros Hp H. eapply Forall_impl; [exact H |].
  intros [[] r0] H0; try discriminate. apply Hp.
Qed.

Lemma sets_only_unseen {B : Type} (obs : ca_event -> option B)
    (l : list ca_event) :
  (forall pl k v r, obs (CaProplistSets pl k v, r) = None) ->
  sets_only l -> Forall (fun e => obs e = None) l.
Proof.
  intros Hp H. eapply Forall_impl; [exact H |].
  intros [[] r0] H0; try discriminate. apply Hp.
Qed.

Lemma cancels_only_unseen {B : Type} (obs : ca_event -> option B)
    (c : GCancellable_ptr) (l : list ca_event) :
  (forall h id r, obs (CaContextCancel h id, r) = None) ->
  cancels_only c l -> Forall (fun e => obs e = None) l.
Proof.
  intros Hp H. eapply Forall_impl; [exact H |].
  intros [[] r0] H0; try discriminate. apply Hp.
Qed.

Variables (pl : ca_proplist) (fill after : list ca_event)
          (c : GCancellable_ptr) (r rd : Z).
Hypothesis Hfill : sets_only fill.
Hypothesis Hafter : cancels_only c after.

Lemma statuses_submission_log (p : ca_call -> bool) (submit : ca_call) :
  (forall pl k v, p (CaProplistSets pl k v) = false) ->
  (forall h id, p (CaContextCancel h id) = false) ->
  p (CaProplistDestroy pl) = false ->
  statuses p (submission_log pl fill submit r after rd)
  = (if p CaProplistCreate then [CA_SUCCESS] else [])
    ++ (if p submit then [r] else []).
Proof.
  intros Hsets Hcancel Hdestroy. unfold submission_log.
  rewrite statuses_cons, statuses_app, statuses_cons, statuses_app,
    statuses_cons, Hdestroy.
  rewrite (statuses_false p fill) by now apply sets_only_quiet.
  rewrite (statuses_false p after)
    by now apply (cancels_only_quiet p c).
  cbn. destruct (p CaProplistCreate), (p submit); reflexivity.
Qed.

Lemma omap_submission_log {B : Type} (obs : ca_event -> option B)
    (submit : ca_call) :
  (forall pl k v r, obs (CaProplistSets pl k v, r) = None) ->
  (forall h id r, obs (CaContextCancel h id, r) = None) ->
  obs (CaProplistCreate, CA_SUCCESS) = None ->
  obs (CaProplistDestroy pl, rd) = None ->
  omap obs (submission_log pl fill submit r after rd)
  = option_list (obs (submit, r)).
Proof.
  intros Hsets Hcancel Hcreate Hdestroy. unfold submission_log.
  cbn [omap list_omap]. rewrite Hcreate, omap_app. cbn [omap list_omap].
  rewrite omap_app.
  rewrite (omap_nothing obs fill) by now apply sets_only_unseen.
  rewrite (omap_nothing obs after)
    by now apply (cancels_only_unseen obs c).
  cbn. rewrite Hdestroy. now destruct (obs (submit, r)).
Qed.

End Observers.

(** ** Playing *)

Section Play.

Variable eng : ca_engine.

Lemma test_return_true (r : Z) (error : GError_loc) :
  fst (test_return eng r error) = true <-> r = CA_SUCCESS.
Proof.
  unfold test_return. destruct (Z.eqb_spec r CA_SUCCESS); cbn; split;
    congruence.
Qed.

Lemma simple_play_ok_failed (r : Z) (error : GError_loc) :
  r <> CA_SUCCESS ->
  simple_play_ok (fst (test_return eng r error)) [(CaProplistCreate, r)].
Proof.
  intros Hr. split; [| constructor].
  rewrite test_return_true. cbn. split; [congruence | discriminate].
Qed.

Lemma simple_play_ok_submitted (pl : ca_proplist) (fill after : list ca_event)
    (c : GCancellable_ptr) (h : option ca_context) (r rd : Z)
    (error : GError_loc) :
  sets_only fill -> cancels_only c after ->
  simple_play_ok (fst (test_return eng r error))
    (submission_log pl fill
       (CaContextPlayFull h (g_direct_hash c) (Some pl) None) r after rd).
Proof.
  intros Hfill Hafter. split.
  - rewrite test_return_true.
    rewrite (statuses_submission_log pl fill after c r rd Hfill Hafter)
      by reflexivity.
    cbn. split; congruence.
  - unfold play_callbacks.
    rewrite (omap_submission_log pl fill after c r rd Hfill Hafter)
      by reflexivity.
    now repeat constructor.
Qed.

Lemma got_proplist_failed (r : Z) :
  r <> CA_SUCCESS -> got_proplist [(CaProplistCreate, r)] = false.
Proof.
  intros Hr. unfold got_proplist. apply bool_decide_eq_false.
  cbn. congruence.
Qed.

Lemma got_proplist_submitted (pl : ca_proplist) (fill after : list ca_event)
    (c : GCancellable_ptr) (submit : ca_call) (r rd : Z) :
  sets_only fill -> cancels_only c after ->
  is_proplist_create submit = false ->
  got_proplist (submission_log pl fill submit r after rd) = true.
Proof.
  intros Hfill Hafter Hsubmit. unfold got_proplist.
  apply bool_decide_eq_true.
  rewrite (statuses_submission_log pl fill after c r rd Hfill Hafter)
    by reflexivity.
  now rewrite Hsubmit.
Qed.

Lemma play_tokens_submitted (pl : ca_proplist) (fill after : list ca_event)
    (c : GCancellable_ptr) (h : option ca_context) (cb : option nat)
    (r rd : Z) :
  sets_only fill -> cancels_only c after ->
  play_tokens
    (submission_log pl fill
       (CaContextPlayFull h (g_direct_hash c) (Some pl) cb) r after rd)
  = [g_direct_hash c].
Proof.
  intros Hfill Hafter. unfold play_tokens.
  now rewrite (omap_submission_log pl fill after c r rd Hfill Hafter)
    by reflexivity.
Qed.

(** The listeners of a cancellation run one after the other; each makes
    one cancel request. *)
Lemma wp_emit_cancelled (c : GCancellable_ptr) (hs : list nat)
    (Q : unit -> world -> Prop) w :
  (forall evs, cancels_only c evs -> length evs = length hs ->
               Q tt (log_append evs w)) ->
  wp (emit_cancelled (on_cancellable_cancelled eng) c hs) Q w.
Proof.
  revert Q w. induction hs as [| self hs IH]; intros Q w H.
  - cbn [emit_cancelled]. wp_step. rewrite <- (log_append_nil w).
    apply H; [constructor | reflexivity].
  - cbn [emit_cancelled]. wp_step.
    apply wp_on_cancellable_cancelled. intros r.
    apply IH. intros evs Hevs Hlen. merge_log.
    apply H; [now constructor | cbn; now rewrite Hlen].
Qed.

(** Triggering a cancellation token: the state changes in the
    cancellable and in the log only, and the log gets cancel requests
    for the token of the cancellable. *)
Lemma wp_cancel (c : GCancellable_ptr) (Q : unit -> world -> Prop) w :
  (forall evs f, cancels_only c evs ->
                 Q tt (log_append evs (set_cancellables f w))) ->
  wp (cancel eng c) Q w.
Proof.
  intros H. unfold cancel, g_cancellable_cancel, g_cancellable_is_cancelled.
  wp_step. wp_step.
  destruct ((c =? NULL) || _).
  - wp_step. rewrite <- (set_cancellables_id w), <- (log_append_nil _).
    apply H. constructor.
  - repeat wp_step. apply wp_emit_cancelled. intros evs Hevs _.
    now apply H.
Qed.

Lemma cancel_tokens_cancels_only (c : GCancellable_ptr) (l : list ca_event) :
  cancels_only c l ->
  Forall (fun t => t = g_direct_hash c) (cancel_tokens l).
Proof.
  induction 1 as [| e l He _ IH]; [constructor |].
  unfold cancel_tokens. cbn. rewrite He. now constructor.
Qed.

End Play.

(** ** The operations on a hash table *)

Section Table.

Variable eng : ca_engine.

Lemma table_op_outcome_failed (attrs : GHashTable)
    (submit : ca_proplist -> ca_call) (r : Z) :
  r <> CA_SUCCESS ->
  table_op_outcome attrs submit [(CaProplistCreate, r)] r.
Proof.
  intros Hr. unfold table_op_outcome.
  now rewrite got_proplist_failed.
Qed.

Lemma table_op_outcome_submitted (attrs : GHashTable)
    (submit : ca_proplist -> ca_call) (pl : ca_proplist)
    (fill after : list ca_event) (c : GCancellable_ptr) (r rd : Z) :
  map fst fill = table_calls pl attrs -> cancels_only c after ->
  is_proplist_create (submit pl) = false ->
  table_op_outcome attrs submit
    (submission_log pl fill (submit pl) r after rd) r.
Proof.
  intros Hfill Hafter Hsubmit. unfold table_op_outcome.
  assert (Hsets : sets_only fill) by (eapply sets_of_hash_table; exact Hfill).
  rewrite (got_proplist_submitted pl fill after c) by assumption.
  exists pl, fill, after, rd. repeat split; [assumption |].
  now apply (cancels_only_quiet is_submission c).
Qed.

(** C10.  The operations that take a hash table do not
    validate it and drop the result of every [ca_proplist_sets]:
    whenever [ca_proplist_create] succeeded, each entry is handed to
    [ca_proplist_sets] once, in iteration order, the native commit or
    submission entry point is then called, and its status alone decides
    the result.  When [ca_proplist_create] fails, its status is the
    result and nothing else is called. *)
Theorem table_ops_submit_when_created (self : nat) (attrs : GHashTable)
    (c : GCancellable_ptr) (error : GError_loc) (w : world) :
  let h := ca (context_of w self) in
  let token := g_direct_hash c in
  let outcome {A : Type} (m : M A) (submit : ca_proplist -> ca_call)
      (decides : Z -> A -> world -> Prop) :=
    exists r, table_op_outcome attrs submit (new_calls w (exec m w)) r
              /\ decides r (eval m w) (exec m w) in
  outcome (gsound_context_change_attrsv eng self attrs error)
    (fun pl => CaContextChangePropsFull h (Some pl))
    (fun r res _ => res = test_return eng r error)
  /\ outcome (gsound_context_play_simplev eng self attrs c error)
       (fun pl => CaContextPlayFull h token (Some pl) None)
       (fun r res _ => res = test_return eng r error)
  /\ outcome (gsound_context_play_fullv eng self attrs c)
       (fun pl => CaContextPlayFull h token (Some pl)
                    (Some (length (tasks w))))
       (fun r _ w' => tasks w' = tasks w ++ [task_after eng self c r])
  /\ outcome (gsound_context_cachev eng self attrs error)
       (fun pl => CaContextCacheFull h (Some pl))
       (fun r res _ => res = test_return eng r error).
Proof.
  intros h token outcome. subst h token outcome. cbv beta.
  repeat split.
  - apply (wp_change_attrsv eng self attrs error (fun res w' =>
      exists r, table_op_outcome attrs _ (new_calls w w') r
                /\ res = test_return eng r error)).
    + intros r w' Hr ->. exists r.
      split; [now apply table_op_outcome_failed | reflexivity].
    + intros pl fill r rd w' Hfill ->. exists r.
      split; [| reflexivity].
      apply (table_op_outcome_submitted attrs
               (fun pl => CaContextChangePropsFull _ (Some pl))
               pl fill [] NULL); [assumption | constructor | reflexivity].
  - apply (wp_play_simplev eng self attrs c error (fun res w' =>
      exists r, table_op_outcome attrs _ (new_calls w w') r
                /\ res = test_return eng r error)).
    + intros r w' Hr -> _. exists r.
      split; [now apply table_op_outcome_failed | reflexivity].
    + intros pl fill r after rd w' Hfill Hafter -> _. exists r.
      split; [| reflexivity].
      apply (table_op_outcome_submitted attrs
               (fun pl => CaContextPlayFull _ _ (Some pl) None)
               pl fill after c); [assumption | assumption | reflexivity].
  - apply (wp_play_fullv eng self attrs c (fun _ w' =>
      exists r, table_op_outcome attrs _ (new_calls w w') r
                /\ tasks w' = tasks w ++ [task_after eng self c r])).
    + intros r w' Hr -> Htasks. exists r.
      split; [now apply table_op_outcome_failed | assumption].
    + intros pl fill r after rd w' Hfill Hafter -> Htasks. exists r.
      split; [| assumption].
      apply (table_op_outcome_submitted attrs
               (fun pl => CaContextPlayFull _ _ (Some pl) _)
               pl fill after c); [assumption | assumption | reflexivity].
  - apply (wp_cachev eng self attrs error (fun res w' =>
      exists r, table_op_outcome attrs _ (new_calls w w') r
                /\ res = test_return eng r error)).
    + intros r w' Hr ->. exists r.
      split; [now apply table_op_outcome_failed | reflexivity].
    + intros pl fill r rd w' Hfill ->. exists r.
      split; [| reflexivity].
      apply (table_op_outcome_submitted attrs
               (fun pl => CaContextCacheFull _ (Some pl))
               pl fill [] NULL); [assumption | constructor | reflexivity].
Qed.

(** Whatever [var_args_to_prop_list] returns, an operation on a
    variadic list that got its property list goes on to its native
    commit or submission entry point, and the status of that call alone
    decides the result. *)
Lemma variadic_ops_submit_when_created (self : nat) (c : GCancellable_ptr)
    (error : GError_loc) (args : va_list) (w : world) :
  let outcome {A : Type} (m : M A) (decides : Z -> A -> world -> Prop) :=
    exists r,
      (if got_proplist (new_calls w (exec m w))
       then statuses is_submission (new_calls w (exec m w)) = [r]
       else r <> CA_SUCCESS
            /\ new_calls w (exec m w) = [(CaProplistCreate, r)])
      /\ decides r (eval m w) (exec m w) in
  outcome (gsound_context_change_attrs eng self error args)
    (fun r res _ => res = test_return eng r error)
  /\ outcome (gsound_context_play_simple eng self c error args)
       (fun r res _ => res = test_return eng r error)
  /\ outcome (gsound_context_play_full eng self c args)
       (fun r _ w' => tasks w' = tasks w ++ [task_after eng self c r])
  /\ outcome (gsound_context_cache eng self error args)
       (fun r res _ => res = test_return eng r error).
Proof.
  intros outcome. subst outcome. cbv beta.
  assert (Hfailed : forall r, r <> CA_SUCCESS ->
            if got_proplist [(CaProplistCreate, r)]
            then statuses is_submission [(CaProplistCreate, r)] = [r]
            else r <> CA_SUCCESS
                 /\ [(CaProplistCreate, r)] = [(CaProplistCreate, r)]).
  { intros r Hr. now rewrite got_proplist_failed. }
  assert (Hsubmitted : forall pl fill submit r after rd,
            sets_only fill -> cancels_only c after ->
            is_proplist_create submit = false ->
            is_submission submit = true ->
            let l := submission_log pl fill submit r after rd in
            if got_proplist l then statuses is_submission l = [r]
            else r <> CA_SUCCESS /\ l = [(CaProplistCreate, r)]).
  { intros pl fill submit r after rd Hfill Hafter Hcreate Hsubmit l. subst l.
    rewrite (got_proplist_submitted pl fill after c) by assumption.
    rewrite (statuses_submission_log pl fill after c r rd Hfill Hafter)
      by reflexivity.
    now rewrite Hsubmit. }
  repeat split.
  - apply (wp_change_attrs eng self error args (fun res w' =>
      exists r,
        (if got_proplist (new_calls w w')
         then statuses is_submission (new_calls w w') = [r]
         else r <> CA_SUCCESS /\ new_calls w w' = [(CaProplistCreate, r)])
        /\ res = test_return eng r error)).
    + intros r w' Hr ->. exists r. split; [now apply Hfailed | reflexivity].
    + intros pl fill r rd w' Hfill ->. exists r. split; [| reflexivity].
      apply Hsubmitted; [assumption | constructor | reflexivity ..].
  - apply (wp_play_simple eng self c error args (fun res w' =>
      exists r,
        (if got_proplist (new_calls w w')
         then statuses is_submission (new_calls w w') = [r]
         else r <> CA_SUCCESS /\ new_calls w w' = [(CaProplistCreate, r)])
        /\ res = test_return eng r error)).
    + intros r w' Hr -> _. exists r. split; [now apply Hfailed | reflexivity].
    + intros pl fill r after rd w' Hfill Hafter -> _. exists r.
      split; [| reflexivity].
      apply Hsubmitted; [assumption | assumption | reflexivity ..].
  - apply (wp_play_full eng self c args (fun _ w' =>
      exists r,
        (if got_proplist (new_calls w w')
         then statuses is_submission (new_calls w w') = [r]
         else r <> CA_SUCCESS /\ new_calls w w' = [(CaProplistCreate, r)])
        /\ tasks w' = tasks w ++ [task_after eng self c r])).
    + intros r w' Hr -> Ht. exists r. split; [now apply Hfailed | assumption].
    + intros pl fill r after rd w' Hfill Hafter -> Ht. exists r.
      split; [| assumption].
      apply Hsubmitted; [assumption | assumption | reflexivity ..].
  - apply (wp_cache eng self error args (fun res w' =>
      exists r,
        (if got_proplist (new_calls w w')
         then statuses is_submission (new_calls w w') = [r]
         else r <> CA_SUCCESS /\ new_calls w w' = [(CaProplistCreate, r)])
        /\ res = test_return eng r error)).
    + intros r w' Hr ->. exists r. split; [now apply Hfailed | reflexivity].
    + intros pl fill r rd w' Hfill ->. exists r. split; [| reflexivity].
      apply Hsubmitted; [assumption | constructor | reflexivity ..].
Qed.

End Table.

(** ** Cancellation and completion *)

Section Completion.

Variable eng : ca_engine.

(** C6. Triggering the cancellation token resolves nothing: it leaves
    every task (and every context) as it was, and all it does towards
    the native engine is to make cancel requests that carry the token
    of the cancellable, one per listener, each of them the single call
    [on_cancellable_cancelled] makes.  A pending task stays pending
    until [on_ca_play_full_finished] runs. *)
Theorem cancellation_only_forwards (c : GCancellable_ptr) (w : world) :
  let w' := exec (cancel eng c) w in
  tasks w' = tasks w
  /\ contexts w' = contexts w
  /\ cancels_only c (new_calls w w')
  /\ forall self,
       let request :=
         CaContextCancel (ca (context_of w self)) (g_direct_hash c) in
       exec (on_cancellable_cancelled eng c self) w
       = log_append [(request, ca_status eng (ca_log w) request)] w.
Proof.
  intros w'. subst w'.
  split; [| split; [| split]].
  - apply (wp_cancel eng c (fun _ w' => tasks w' = tasks w)). reflexivity.
  - apply (wp_cancel eng c (fun _ w' => contexts w' = contexts w)).
    reflexivity.
  - apply (wp_cancel eng c (fun _ w' => cancels_only c (new_calls w w'))).
    intros evs f Hevs. now merge_log.
  - reflexivity.
Qed.

Lemma set_tasks_same (f : list GTask -> list GTask) (w : world) :
  f (tasks w) = tasks w -> set_tasks f w = w.
Proof. intros H. destruct w. unfold set_tasks. cbn in *. now rewrite H. Qed.

Lemma update_task_run (t : nat) (f : GTask -> GTask) (task : GTask)
    (w : world) :
  tasks w !! t = Some task ->
  exec (update_task t f) w = set_tasks (fun ts => <[t := f task]> ts) w.
Proof.
  intros H. unfold exec, update_task, modify, set_tasks. cbn. now rewrite H.
Qed.

(** The completion callback with a failure status fails the task with
    the native error. *)
Lemma on_ca_play_full_finished_failure (h : option ca_context) (id code : Z)
    (t : nat) (task : GTask) (w : world) :
  tasks w !! t = Some task -> code <> CA_SUCCESS ->
  exec (on_ca_play_full_finished eng h id code t) w
  = set_tasks (fun ts => <[t := returned_error (native_error eng code) task]> ts) w.
Proof.
  intros Ht Hcode. unfold on_ca_play_full_finished.
  rewrite negb_eqb_success_true by assumption.
  unfold g_task_return_new_error, g_task_return_error.
  now apply update_task_run.
Qed.

(** A task that has returned ignores the completion callback. *)
Lemma on_ca_play_full_finished_again (h : option ca_context) (id code : Z)
    (t : nat) (task : GTask) (w : world) :
  tasks w !! t = Some task -> ever_returned task = true ->
  exec (on_ca_play_full_finished eng h id code t) w = w.
Proof.
  intros Ht Hret. unfold on_ca_play_full_finished.
  destruct (negb (code =? CA_SUCCESS));
    unfold g_task_return_new_error, g_task_return_error,
      g_task_return_boolean;
    erewrite update_task_run by eassumption;
    apply set_tasks_same;
    unfold returned_error, returned_boolean; rewrite Hret;
    now apply list_insert_id.
Qed.

(** [gsound_context_play_full_finish] on a task of [self] that failed
    with [e]. *)
Lemma play_full_finish_failed (self t : nat) (c : GCancellable_ptr)
    (e : GError) (error : GError_loc) (w : world) :
  tasks w !! t = Some (returned_error e (new_task self c)) ->
  error_of error = None ->
  eval (gsound_context_play_full_finish self t error) w
  = if eval (g_cancellable_is_cancelled c) w
    then (false, g_set_error_literal error G_IO_ERROR G_IO_ERROR_CANCELLED
                   "Operation was cancelled")
    else (false, g_propagate_error error e).
Proof.
  intros Ht Herr.
  unfold eval, gsound_context_play_full_finish, g_task_is_valid,
    g_task_propagate_boolean, g_cancellable_is_cancelled, update_task,
    gets, modify, mbind, M_bind, mret, M_ret.
  destruct error as [[e' |] |]; [discriminate | |].
  all: cbn; rewrite !Ht; cbn; rewrite Nat.eqb_refl; cbn; rewrite ?Ht; cbn.
  all: now destruct (negb (c =? NULL) && cancelled (cancellable_of w c)).
Qed.

(** An asynchronous play whose submission was accepted leaves its task
    pending, and has registered that task with the completion
    callback. *)
Lemma play_full_accepted_pending (self : nat) (c : GCancellable_ptr)
    (args : va_list) (w : world) :
  let w' := exec (gsound_context_play_full eng self c args) w in
  statuses is_play (new_calls w w') = [CA_SUCCESS] ->
  tasks w' !! length (tasks w) = Some (new_task self c)
  /\ play_callbacks (new_calls w w') = [Some (length (tasks w))].
Proof.
  intros w'. subst w'.
  apply (wp_play_full eng self c args (fun _ w' =>
    statuses is_play (new_calls w w') = [CA_SUCCESS] ->
    tasks w' !! length (tasks w) = Some (new_task self c)
    /\ play_callbacks (new_calls w w') = [Some (length (tasks w))])).
  - intros r w' _ -> _. discriminate.
  - intros pl fill r after rd w' Hfill Hafter -> Ht Hr.
    rewrite (statuses_submission_log pl fill after c r rd Hfill Hafter)
      in Hr by reflexivity.
    injection Hr as ->. split.
    + rewrite Ht, lookup_app_r by lia. now rewrite Nat.sub_diag.
    + unfold play_callbacks.
      now rewrite (omap_submission_log pl fill after c _ rd Hfill Hafter)
        by reflexivity.
Qed.

(** C5. When the completion callback of a pending asynchronous play
    runs with a status other than [CA_SUCCESS], the task fails with the
    error of domain [GSOUND_ERROR] whose code is that status and whose
    message is [ca_strerror] of it; it does so once, a later run of the
    callback changes nothing.  From then on
    [gsound_context_play_full_finish] hands out that error, unless the
    cancellation object of the play has been triggered: the
    cancellation check of the task then comes first and the error is
    [G_IO_ERROR_CANCELLED]. *)
Theorem completion_failure_delivered (w : world) (t self : nat)
    (c : GCancellable_ptr) (h : option ca_context) (id code : Z)
    (error : GError_loc) :
  tasks w !! t = Some (new_task self c) ->
  code <> CA_SUCCESS ->
  error_of error = None ->
  let e := native_error eng code in
  let failed := returned_error e (new_task self c) in
  let w1 := exec (on_ca_play_full_finished eng h id code t) w in
  tasks w1 !! t = Some failed
  /\ task_error failed = Some e
  /\ (forall h' id' code',
        exec (on_ca_play_full_finished eng h' id' code' t) w1 = w1)
  /\ (forall w2,
        tasks w2 !! t = Some failed ->
        eval (gsound_context_play_full_finish self t error) w2
        = (false,
           g_propagate_error error
             (if eval (g_cancellable_is_cancelled c) w2
              then cancelled_error else e))).
Proof.
  intros Ht Hcode Herr e failed w1.
  assert (Hlt : (t < length (tasks w))%nat) by (eapply lookup_lt_Some; eauto).
  assert (Ht1 : tasks w1 !! t = Some failed).
  { subst w1. rewrite (on_ca_play_full_finished_failure _ _ _ _ _ _ Ht Hcode).
    cbn. now apply list_lookup_insert_eq. }
  split; [exact Ht1 |]. split; [reflexivity |]. split.
  - intros h' id' code'.
    now apply (on_ca_play_full_finished_again _ _ _ _ _ _ Ht1).
  - intros w2 Ht2.
    rewrite (play_full_finish_failed self t c e error w2 Ht2 Herr).
    destruct (eval (g_cancellable_is_cancelled c) w2); [| reflexivity].
    now destruct error as [[e' |] |].
Qed.

End Completion.

(** ** The code on sample inputs *)

(** C1. A key without a value: [var_args_to_prop_list] reports
    [CA_ERROR_INVALID], but the four functions that take a variadic list
    drop that status.  On ["event.id", NULL] each of them goes on to call
    its native commit or submission entry point with the property list
    built so far, and reports what that call returned: here success,
    with no error set and, for the play that notifies, a pending task. *)
Theorem missing_value_is_submitted :
  eval (var_args_to_prop_list engine_ok missing_value (Some 5%nat)) world1
  = CA_ERROR_INVALID
  /\ (gsound_context_change_attrs engine_ok 0%nat (Some None) missing_value
        world1
      = ((true, Some None),
         log_append [(CaProplistCreate, CA_SUCCESS);
                     (CaContextChangePropsFull (Some 0%nat) (Some 5%nat),
                      CA_SUCCESS);
                     (CaProplistDestroy 5, CA_SUCCESS)] world1))
  /\ (gsound_context_play_simple engine_ok 0%nat NULL (Some None)
        missing_value world1
      = ((true, Some None),
         log_append [(CaProplistCreate, CA_SUCCESS);
                     (CaContextPlayFull (Some 0%nat) 0 (Some 5%nat) None,
                      CA_SUCCESS);
                     (CaProplistDestroy 5, CA_SUCCESS)] world1))
  /\ (gsound_context_play_full engine_ok 0%nat NULL missing_value world1
      = (tt,
         log_append [(CaProplistCreate, CA_SUCCESS);
                     (CaContextPlayFull (Some 0%nat) 0 (Some 5%nat)
                        (Some 0%nat), CA_SUCCESS);
                     (CaProplistDestroy 5, CA_SUCCESS)]
           (set_tasks (fun ts => ts ++ [new_task 0 NULL]) world1)))
  /\ (gsound_context_cache engine_ok 0%nat (Some None) missing_value world1
      = ((true, Some None),
         log_append [(CaProplistCreate, CA_SUCCESS);
                     (CaContextCacheFull (Some 0%nat) (Some 5%nat),
                      CA_SUCCESS);
                     (CaProplistDestroy 5, CA_SUCCESS)] world1)).
Proof.
  split; [vm_compute; reflexivity |].
  split; [vm_compute; reflexivity |].
  split; [vm_compute; reflexivity |].
  split; vm_compute; reflexivity.
Qed.

(** C2. The commit of the default attributes fails after the handle was
    created: [gsound_context_real_init] returns TRUE, yet it has passed
    the caller's error location to [test_return], which fills it.  With
    an engine whose commit runs out of memory the caller gets TRUE
    together with the error [CA_ERROR_OOM]. *)
Theorem init_commit_failure_sets_error :
  eval (gsound_context_real_init engine_no_commit 0%nat NULL (Some None))
    world0
  = (true, Some (Some (native_error engine_no_commit CA_ERROR_OOM)))
  /\ statuses is_context_create
       (new_calls world0
          (exec (gsound_context_real_init engine_no_commit 0%nat NULL
                   (Some None)) world0))
     = [CA_SUCCESS]
  /\ statuses is_change_props
       (new_calls world0
          (exec (gsound_context_real_init engine_no_commit 0%nat NULL
                   (Some None)) world0))
     = [CA_ERROR_OOM].
Proof.
  split; [vm_compute; reflexivity |].
  split; vm_compute; reflexivity.
Qed.

(** C5 does not hold without the cancellation check.  The play of
    [world_cancelled] was cancelled by its token, and the native engine
    completed it with [CA_ERROR_CANCELED]: the task holds that native
    error, but [gsound_context_play_full_finish] reports
    [G_IO_ERROR_CANCELLED]. *)
Lemma finish_after_cancel_reports_cancelled :
  tasks world_cancelled !! 0%nat
  = Some (returned_error (native_error engine_ok CA_ERROR_CANCELED)
            (new_task 0 cancellable1))
  /\ eval (gsound_context_play_full_finish 0%nat 0%nat (Some None))
       world_cancelled
     = (false, Some (Some cancelled_error))
  /\ error_code cancelled_error <> CA_ERROR_CANCELED
  /\ error_domain cancelled_error <> GSOUND_ERROR.
Proof.
  split; [vm_compute; reflexivity |].
  split; [vm_compute; reflexivity |].
  split; vm_compute; discriminate.
Qed.

(** C10 does not hold without a property list.  When
    [ca_proplist_create] fails, [gsound_context_change_attrsv] returns
    that failure and never calls [ca_context_change_props_full]. *)
Lemma change_attrsv_without_proplist :
  eval (gsound_context_change_attrsv engine_no_proplist 0%nat bell_attrs
          (Some None)) world1
  = (false, Some (Some (native_error engine_no_proplist CA_ERROR_OOM)))
  /\ new_calls world1
       (exec (gsound_context_change_attrsv engine_no_proplist 0%nat
                bell_attrs (Some None)) world1)
     = [(CaProplistCreate, CA_ERROR_OOM)]
  /\ statuses is_submission
       (new_calls world1
          (exec (gsound_context_change_attrsv engine_no_proplist 0%nat
                   bell_attrs (Some None)) world1))
     = [].
Proof.
  split; [vm_compute; reflexivity |].
  split; vm_compute; reflexivity.
Qed.

(** ** Instances *)

Lemma init_idempotent_witness :
  ca (context_of world1 0%nat) = Some 0%nat
  /\ (gsound_context_real_init engine_ok 0%nat NULL (Some None) world1
      = ((true, Some None), world1)
      /\ new_calls world1
           (exec (gsound_context_real_init engine_ok 0%nat NULL (Some None))
              world1)
         = []).
Proof.
  split; [reflexivity |].
  apply (init_idempotent engine_ok world1 0%nat NULL (Some None) 0%nat).
  reflexivity.
Defined.

Lemma init_create_failure_witness :
  ca (context_of world0 0%nat) = None
  /\ statuses is_context_create
       (new_calls world0
          (exec (gsound_context_real_init engine_no_context 0%nat NULL
                   (Some None)) world0))
     = [CA_ERROR_OOM]
  /\ CA_ERROR_OOM <> CA_SUCCESS
  /\ (eval (gsound_context_real_init engine_no_context 0%nat NULL (Some None))
        world0
      = (false, g_set_error_literal (Some None) GSOUND_ERROR CA_ERROR_OOM
                  (ca_strerror engine_no_context CA_ERROR_OOM))
      /\ new_calls world0
           (exec (gsound_context_real_init engine_no_context 0%nat NULL
                    (Some None)) world0)
         = [(CaContextCreate, CA_ERROR_OOM)]
      /\ contexts
           (exec (gsound_context_real_init engine_no_context 0%nat NULL
                    (Some None)) world0)
         = contexts world0
      /\ ca (context_of
               (exec (gsound_context_real_init engine_no_context 0%nat NULL
                        (Some None)) world0) 0%nat)
         = None).
Proof.
  split; [reflexivity |]. split; [reflexivity |]. split; [discriminate |].
  apply (init_create_failure engine_no_context world0 0%nat NULL (Some None)
           CA_ERROR_OOM);
    [reflexivity | reflexivity | discriminate].
Defined.

Lemma init_success_without_handle_witness :
  ca (context_of world0 0%nat) = None
  /\ statuses is_context_create
       (new_calls world0
          (exec (gsound_context_real_init engine_no_commit 0%nat NULL
                   (Some None)) world0))
     = [CA_SUCCESS]
  /\ statuses is_change_props
       (new_calls world0
          (exec (gsound_context_real_init engine_no_commit 0%nat NULL
                   (Some None)) world0))
     = [CA_ERROR_OOM]
  /\ CA_ERROR_OOM <> CA_SUCCESS
  /\ (fst (eval (gsound_context_real_init engine_no_commit 0%nat NULL
                   (Some None)) world0)
      = true
      /\ ca (context_of
               (exec (gsound_context_real_init engine_no_commit 0%nat NULL
                        (Some None)) world0) 0%nat)
         = None
      /\ exists h pl rd,
           (CaContextChangePropsFull (Some h) pl, CA_ERROR_OOM)
           ∈ new_calls world0
               (exec (gsound_context_real_init engine_no_commit 0%nat NULL
                        (Some None)) world0)
           /\ last (new_calls world0
                      (exec (gsound_context_real_init engine_no_commit 0%nat
                               NULL (Some None)) world0))
              = Some (CaContextDestroy h, rd)).
Proof.
  split; [reflexivity |]. split; [reflexivity |]. split; [reflexivity |].
  split; [discriminate |].
  apply (init_success_without_handle engine_no_commit world0 0%nat NULL
           (Some None) CA_ERROR_OOM);
    [reflexivity | reflexivity | reflexivity | discriminate].
Defined.

Lemma completion_failure_delivered_witness :
  tasks world_playing !! 0%nat = Some (new_task 0 cancellable1)
  /\ CA_ERROR_OOM <> CA_SUCCESS
  /\ error_of (Some None) = None
  /\ (let e := native_error engine_ok CA_ERROR_OOM in
      let failed := returned_error e (new_task 0 cancellable1) in
      let w1 :=
        exec (on_ca_play_full_finished engine_ok (Some 0%nat)
                (g_direct_hash cancellable1) CA_ERROR_OOM 0%nat)
          world_playing in
      tasks w1 !! 0%nat = Some failed
      /\ task_error failed = Some e
      /\ (forall h' id' code',
            exec (on_ca_play_full_finished engine_ok h' id' code' 0%nat) w1
            = w1)
      /\ (forall w2,
            tasks w2 !! 0%nat = Some failed ->
            eval (gsound_context_play_full_finish 0%nat 0%nat (Some None)) w2
            = (false,
               g_propagate_error (Some None)
                 (if eval (g_cancellable_is_cancelled cancellable1) w2
                  then cancelled_error else e)))).
Proof.
  split; [reflexivity |]. split; [discriminate |]. split; [reflexivity |].
  apply (completion_failure_delivered engine_ok world_playing 0%nat 0%nat
           cancellable1 (Some 0%nat) (g_direct_hash cancellable1)
           CA_ERROR_OOM (Some None));
    [reflexivity | discriminate | reflexivity].
Defined.

(** * Further properties of [gsound-context.c] *)

(** ** Variadic lists *)

Section VarArgs.

Variable eng : ca_engine.

Lemma native_logged (c : ca_call) (w : world) :
  native eng c w
  = (ca_status eng (ca_log w) c,
     log_append [(c, ca_status eng (ca_log w) c)] w).
Proof. reflexivity. Qed.

Lemma var_args_run (args : va_list) (pl : option ca_proplist) (w : world) :
  exists r l,
    var_args_to_prop_list eng args pl w = (r, log_append l w)
    /\ var_args_outcome pl (fst (parse_args args)) (snd (parse_args args))
         r l.
Proof.
  remember (length args) as n eqn:Hn.
  assert (Hle : (length args <= n)%nat) by lia. clear Hn.
  revert args Hle w. induction n as [| n IH]; intros args Hle w.
  - destruct args; [| simpl in Hle; lia].
    exists CA_SUCCESS, []. rewrite log_append_nil.
    split; [reflexivity |]. left. now repeat split.
  - destruct args as [| [key |] [| [val |] args]];
      try (eexists _, []; rewrite log_append_nil;
           split; [reflexivity |]; left; now repeat split).
    cbn [var_args_to_prop_list parse_args].
    unfold ca_proplist_sets, mbind, M_bind. rewrite native_logged.
    set (c := CaProplistSets pl (Some key) (Some val)).
    set (r := ca_status eng (ca_log w) c).
    destruct (parse_args args) as [pairs missing] eqn:Hparse.
    cbn [fst snd].
    destruct (Z.eqb_spec r CA_SUCCESS) as [Hr | Hr]; cbn [negb].
    + destruct (IH args ltac:(simpl in Hle; lia) (log_append [(c, r)] w))
        as (r' & l & Hrun & Hout).
      rewrite Hparse in Hout. cbn [fst snd] in Hout.
      exists r', ((c, r) :: l). rewrite Hrun, log_append_append.
      split; [reflexivity |].
      destruct Hout as [(Hcalls & Hok & Hr')
                       | (k & l0 & c' & Hk & -> & Hcalls & Hok & Hr')].
      * left. split; [| split; [now constructor | assumption]].
        cbn. now rewrite Hcalls.
      * right. exists (S k), ((c, r) :: l0), c'.
        split; [cbn; lia |]. split; [reflexivity |].
        split; [| split; [now constructor | assumption]].
        cbn [map fst take pair_calls]. cbn. f_equal. exact Hcalls.
    + exists r, [(c, r)]. split; [reflexivity |].
      right. exists 0%nat, [], c.
      split; [cbn; lia |]. split; [reflexivity |].
      split; [| split; [constructor | assumption]].
      cbn. unfold pair_calls. cbn. now rewrite take_0.
Qed.

(** X1. [var_args_to_prop_list] reads the pairs of the list up to the
    terminating NULL and sets them in order.  It either sets every
    pair, all accepted, and returns [CA_SUCCESS], or
    [CA_ERROR_INVALID] when the list breaks off on a key without a
    value; or it stops at the first [ca_proplist_sets] that fails and
    returns the status of that call.  Arguments after the terminator
    are never read, and apart from the log the state is untouched. *)
Theorem var_args_to_prop_list_outcome (args : va_list)
    (pl : option ca_proplist) (w : world) :
  let m := var_args_to_prop_list eng args pl in
  exec m w = log_append (new_calls w (exec m w)) w
  /\ var_args_outcome pl (fst (parse_args args)) (snd (parse_args args))
       (eval m w) (new_calls w (exec m w)).
Proof.
  intros m. subst m.
  destruct (var_args_run args pl w) as (r & l & Hrun & Hout).
  unfold exec, eval. rewrite Hrun. cbn [fst snd].
  rewrite new_calls_log_append by reflexivity. now split.
Qed.

Hypothesis Haccepts : accepts_sets eng.

Lemma sets_accepted (pl : option ca_proplist) (key value : cstr)
    (w : world) :
  ca_proplist_sets eng pl key value w
  = (CA_SUCCESS, log_append [(CaProplistSets pl key value, CA_SUCCESS)] w).
Proof.
  unfold ca_proplist_sets. rewrite native_logged. now rewrite Haccepts.
Qed.

(** On an engine that accepts every property the variadic loop makes
    the calls of the loop over the hash table with the same pairs. *)
Lemma var_args_as_table (args : va_list) (pl : option ca_proplist)
    (w : world) :
  var_args_to_prop_list eng args pl w
  = (if snd (parse_args args) then CA_ERROR_INVALID else CA_SUCCESS,
     exec (hash_table_to_prop_list eng (table_of (fst (parse_args args)))
             pl) w).
Proof.
  remember (length args) as n eqn:Hn.
  assert (Hle : (length args <= n)%nat) by lia. clear Hn.
  revert args Hle w. induction n as [| n IH]; intros args Hle w.
  - destruct args; [reflexivity | simpl in Hle; lia].
  - destruct args as [| [key |] [| [val |] args]]; try reflexivity.
    cbn [var_args_to_prop_list parse_args].
    destruct (parse_args args) as [pairs missing] eqn:Hparse.
    cbn [fst snd table_of map hash_table_to_prop_list].
    unfold mbind, M_bind, exec. rewrite !sets_accepted.
    rewrite negb_eqb_success_false. cbn [snd].
    rewrite IH by (simpl in Hle; lia). now rewrite Hparse.
Qed.

(** X2. On an engine that accepts every property, each function that
    takes a variadic list does exactly what its counterpart on hash
    tables does with the pairs that precede the terminator: same
    result, same state, same native calls.  This holds also for a list
    that breaks off on a key without a value. *)
Theorem variadic_as_table (self : nat) (c : GCancellable_ptr)
    (error : GError_loc) (args : va_list) (w : world) :
  let attrs := table_of (fst (parse_args args)) in
  gsound_context_change_attrs eng self error args w
  = gsound_context_change_attrsv eng self attrs error w
  /\ gsound_context_play_simple eng self c error args w
     = gsound_context_play_simplev eng self attrs c error w
  /\ gsound_context_play_full eng self c args w
     = gsound_context_play_fullv eng self attrs c w
  /\ gsound_context_cache eng self error args w
     = gsound_context_cachev eng self attrs error w.
Proof.
  intros attrs. subst attrs.
  assert (Hfill : forall A pl (k : M A) w0,
            (var_args_to_prop_list eng args pl ≫= fun _ => k) w0
            = (hash_table_to_prop_list eng
                 (table_of (fst (parse_args args))) pl ≫= fun _ => k) w0).
  { intros A pl k w0. unfold mbind, M_bind. rewrite var_args_as_table.
    unfold exec. now destruct (hash_table_to_prop_list _ _ _ _) as [[] w1]. }
  assert (Hgo : forall A (m1 m2 : Z -> option ca_proplist -> M A) w0,
            (forall pl w1, m1 CA_SUCCESS pl w1 = m2 CA_SUCCESS pl w1) ->
            (forall r pl w1, r <> CA_SUCCESS -> m1 r pl w1 = m2 r pl w1) ->
            (ca_proplist_create eng None ≫= fun '(res, pl) => m1 res pl) w0
            = (ca_proplist_create eng None ≫= fun '(res, pl) => m2 res pl)
                w0).
  { intros A m1 m2 w0 Hok Hfail. unfold mbind, M_bind.
    destruct (ca_proplist_create eng None w0) as [[res pl] w1].
    destruct (Z.eq_dec res CA_SUCCESS) as [-> | Hres]; auto. }
  split; [| split; [| split]].
  - apply Hgo.
    + intros pl w1. rewrite negb_eqb_success_false, test_return_success.
      apply Hfill.
    + intros r pl w1 Hr.
      now rewrite negb_eqb_success_true, !test_return_failure.
  - apply Hgo.
    + intros pl w1. rewrite negb_eqb_success_false, test_return_success.
      apply Hfill.
    + intros r pl w1 Hr.
      now rewrite negb_eqb_success_true, !test_return_failure.
  - unfold gsound_context_play_full, gsound_context_play_fullv.
    assert (Hnew : forall A (f : nat -> M A),
              (g_task_new self c ≫= f) w
              = f (length (tasks w))
                  (set_tasks (fun ts => ts ++ [new_task self c]) w))
      by reflexivity.
    rewrite !Hnew. apply Hgo.
    + intros pl w1. rewrite test_return_success. apply Hfill.
    + intros r pl w1 Hr. now rewrite !test_return_failure.
  - apply Hgo.
    + intros pl w1. rewrite negb_eqb_success_false, test_return_success.
      apply Hfill.
    + intros r pl w1 Hr.
      now rewrite negb_eqb_success_true, !test_return_failure.
Qed.

End VarArgs.

(** ** The log against the engine *)

Section Answers.

Variable eng : ca_engine.

Lemma answered_app (log l1 l2 : list ca_event) :
  answered eng log (l1 ++ l2)
  <-> answered eng log l1 /\ answered eng (log ++ l1) l2.
Proof.
  revert log. induction l1 as [| e l1 IH]; intros log; cbn [app answered].
  - rewrite app_nil_r. tauto.
  - rewrite IH, <- app_assoc. cbn [app]. tauto.
Qed.

Lemma faithful_bind {A B : Type} (m : M A) (f : A -> M B) :
  faithful eng m -> (forall a, faithful eng (f a)) ->
  faithful eng (m ≫= f).
Proof.
  intros Hm Hf w. unfold exec, mbind, M_bind.
  destruct (Hm w) as (l1 & E1 & H1). unfold exec in E1.
  destruct (m w) as [a w1]. cbn [snd] in E1.
  destruct (Hf a w1) as (l2 & E2 & H2). unfold exec in E2.
  exists (l1 ++ l2). split.
  - rewrite E2, E1. now rewrite app_assoc.
  - apply answered_app. split; [assumption |]. now rewrite <- E1.
Qed.

Lemma faithful_quiet {A : Type} (m : M A) :
  (forall w, ca_log (exec m w) = ca_log w) -> faithful eng m.
Proof.
  intros H w. exists []. split; [rewrite app_nil_r; apply H | exact I].
Qed.

Lemma faithful_ret {A : Type} (a : A) : faithful eng (mret a).
Proof. now apply faithful_quiet. Qed.

Lemma faithful_native (c : ca_call) : faithful eng (native eng c).
Proof.
  intros w. exists [(c, ca_status eng (ca_log w) c)].
  split; [reflexivity |]. cbn. now split.
Qed.

Lemma faithful_hash_table (ht : GHashTable) (pl : option ca_proplist) :
  faithful eng (hash_table_to_prop_list eng ht pl).
Proof.
  induction ht as [| [key value] ht IH]; cbn [hash_table_to_prop_list].
  - apply faithful_ret.
  - apply faithful_bind; [apply faithful_native | intros _; exact IH].
Qed.

Lemma faithful_var_args (args : va_list) (pl : option ca_proplist) :
  faithful eng (var_args_to_prop_list eng args pl).
Proof.
  remember (length args) as n eqn:Hn.
  assert (Hle : (length args <= n)%nat) by lia. clear Hn.
  revert args Hle. induction n as [| n IH]; intros args Hle.
  - destruct args; [apply faithful_ret | simpl in Hle; lia].
  - destruct args as [| [key |] [| [val |] args]];
      cbn [var_args_to_prop_list]; try apply faithful_ret.
    apply faithful_bind; [apply faithful_native | intros r].
    destruct (negb (r =? CA_SUCCESS)); [apply faithful_ret |].
    apply IH. simpl in Hle. lia.
Qed.

Lemma faithful_on_cancellable_cancelled (c : GCancellable_ptr)
    (self : nat) :
  faithful eng (on_cancellable_cancelled eng c self).
Proof.
  unfold on_cancellable_cancelled.
  apply faithful_bind; [now apply faithful_quiet | intros h].
  apply faithful_bind; [apply faithful_native | intros _].
  apply faithful_ret.
Qed.

Lemma faithful_connect_cancellable (self : nat) (c : GCancellable_ptr) :
  faithful eng (connect_cancellable eng self c).
Proof.
  unfold connect_cancellable, g_cancellable_connect.
  destruct (negb (c =? NULL)); [| apply faithful_ret].
  apply faithful_bind; [now apply faithful_quiet | intros st].
  destruct (cancelled st).
  - apply faithful_on_cancellable_cancelled.
  - now apply faithful_quiet.
Qed.

Lemma faithful_clear_proplist (pl : option ca_proplist) :
  faithful eng (clear_proplist eng pl).
Proof.
  destruct pl; [| apply faithful_ret].
  apply faithful_bind; [apply faithful_native | intros _].
  apply faithful_ret.
Qed.

Lemma faithful_new_calls {A : Type} (m : M A) (w : world) :
  faithful eng m -> answered eng (ca_log w) (new_calls w (exec m w)).
Proof.
  intros Hm. destruct (Hm w) as (l & E & H).
  unfold new_calls. rewrite E. now rewrite drop_app_length.
Qed.

End Answers.

Ltac faithful_step eng :=
  lazymatch goal with
  | |- faithful _ (_ ≫= _) => apply faithful_bind; [| intros ?]
  | |- faithful _ (mret _) => apply faithful_ret
  | |- faithful _ (native _ _) => apply faithful_native
  | |- faithful _ (var_args_to_prop_list _ _ _) => apply faithful_var_args
  | |- faithful _ (hash_table_to_prop_list _ _ _) =>
      apply faithful_hash_table
  | |- faithful _ (connect_cancellable _ _ _) =>
      apply faithful_connect_cancellable
  | |- faithful _ (clear_proplist _ _) => apply faithful_clear_proplist
  | |- faithful _ (ca_proplist_create _ _) => unfold ca_proplist_create
  | |- faithful _ (ca_context_play_full _ _ _ _ _) =>
      unfold ca_context_play_full
  | |- faithful _ (ca_context_open _ _) => unfold ca_context_open
  | |- faithful _ (ca_context_create _ _) => unfold ca_context_create
  | |- faithful _ (ca_proplist_sets _ _ _ _) => unfold ca_proplist_sets
  | |- faithful _ (clear_self_ca _ _) => unfold clear_self_ca
  | |- faithful _ (set_self_ca _ _) => unfold set_self_ca
  | |- faithful _ (match ?x with Some _ => _ | None => _ end) => destruct x
  | |- faithful _ (ca_context_set_driver _ _ _) =>
      unfold ca_context_set_driver
  | |- faithful _ (ca_context_change_props_full _ _ _) =>
      unfold ca_context_change_props_full
  | |- faithful _ (ca_context_cache_full _ _ _) =>
      unfold ca_context_cache_full
  | |- faithful _ (g_task_return_error _ (Some _)) =>
      unfold g_task_return_error
  | |- faithful _ (g_task_return_error _ None) => unfold g_task_return_error
  | |- faithful _ (g_task_return_error _ ?e) => destruct e
  | |- faithful _ (if ?b then _ else _) => destruct b
  | |- faithful _ (let '(_, _) := ?x in _) => destruct x
  | |- faithful _ _ => apply faithful_quiet; intros ?; reflexivity
  end.

Section AnsweredOperations.

Variable eng : ca_engine.

Lemma answered_elem (log l : list ca_event) (c : ca_call) (r : Z) :
  answered eng log l -> (c, r) ∈ l ->
  exists log', r = ca_status eng log' c.
Proof.
  revert log. induction l as [| e l IH]; intros log Hl Hin.
  - now apply elem_of_nil in Hin.
  - destruct Hl as [He Hl]. apply elem_of_cons in Hin as [<- | Hin].
    + now exists log.
    + now apply (IH (log ++ [e])).
Qed.

Lemma faithful_open (self : nat) (error : GError_loc) :
  faithful eng (gsound_context_open eng self error).
Proof. unfold gsound_context_open. repeat faithful_step eng. Qed.

Lemma faithful_set_driver (self : nat) (driver : cstr)
    (error : GError_loc) :
  faithful eng (gsound_context_set_driver eng self driver error).
Proof. unfold gsound_context_set_driver. repeat faithful_step eng. Qed.

Lemma faithful_change_attrs (self : nat) (error : GError_loc)
    (args : va_list) :
  faithful eng (gsound_context_change_attrs eng self error args).
Proof. unfold gsound_context_change_attrs. repeat faithful_step eng. Qed.

Lemma faithful_change_attrsv (self : nat) (attrs : GHashTable)
    (error : GError_loc) :
  faithful eng (gsound_context_change_attrsv eng self attrs error).
Proof. unfold gsound_context_change_attrsv. repeat faithful_step eng. Qed.

Lemma faithful_cache (self : nat) (error : GError_loc) (args : va_list) :
  faithful eng (gsound_context_cache eng self error args).
Proof. unfold gsound_context_cache. repeat faithful_step eng. Qed.

Lemma faithful_cachev (self : nat) (attrs : GHashTable)
    (error : GError_loc) :
  faithful eng (gsound_context_cachev eng self attrs error).
Proof. unfold gsound_context_cachev. repeat faithful_step eng. Qed.

Lemma faithful_play_simple (self : nat) (c : GCancellable_ptr)
    (error : GError_loc) (args : va_list) :
  faithful eng (gsound_context_play_simple eng self c error args).
Proof. unfold gsound_context_play_simple. repeat faithful_step eng. Qed.

Lemma faithful_play_simplev (self : nat) (attrs : GHashTable)
    (c : GCancellable_ptr) (error : GError_loc) :
  faithful eng (gsound_context_play_simplev eng self attrs c error).
Proof. unfold gsound_context_play_simplev. repeat faithful_step eng. Qed.

Lemma faithful_play_full (self : nat) (c : GCancellable_ptr)
    (args : va_list) :
  faithful eng (gsound_context_play_full eng self c args).
Proof. unfold gsound_context_play_full. repeat faithful_step eng. Qed.

Lemma faithful_play_fullv (self : nat) (attrs : GHashTable)
    (c : GCancellable_ptr) :
  faithful eng (gsound_context_play_fullv eng self attrs c).
Proof. unfold gsound_context_play_fullv. repeat faithful_step eng. Qed.

End AnsweredOperations.

(** ** How the synchronous operations report *)

Section Reports.

Variable eng : ca_engine.

Lemma reports_test_return (error : GError_loc) (l : list ca_event)
    (c : ca_call) (r : Z) :
  (c, r) ∈ l -> reports eng error l (test_return eng r error).
Proof.
  intros Hin. destruct (Z.eq_dec r CA_SUCCESS) as [-> | Hr].
  - left. reflexivity.
  - right. exists c, r. now rewrite test_return_failure.
Qed.

Lemma elem_of_submission_log (pl : ca_proplist) (fill after : list ca_event)
    (submit : ca_call) (r rd : Z) :
  (submit, r) ∈ submission_log pl fill submit r after rd.
Proof.
  unfold submission_log. apply elem_of_cons. right.
  apply elem_of_app. right. apply elem_of_cons. now left.
Qed.

(** X3. The synchronous operations keep to the [GError] convention and
    report native statuses only.  The result of each is what
    [test_return] makes of the status the engine gave to one of the
    native calls the operation has just made.  So each either returns
    TRUE and leaves the error location as it was, or returns FALSE and
    sets an error of domain [GSOUND_ERROR] whose code is that failure
    status, with the message [ca_strerror] gives for it; on an engine
    that accepts every call all of them succeed, and on an engine that
    refuses every call all of them fail. *)
Theorem sync_ops_report_native_status (self : nat) (c : GCancellable_ptr)
    (driver : cstr) (error : GError_loc) (args : va_list)
    (attrs : GHashTable) (w : world) :
  let ok (m : M (bool * GError_loc)) :=
    let l := new_calls w (exec m w) in
    answered eng (ca_log w) l
    /\ (exists call r,
          (call, r) ∈ l /\ eval m w = test_return eng r error)
    /\ reports eng error l (eval m w)
    /\ ((forall log call, ca_status eng log call = CA_SUCCESS) ->
        eval m w = (true, error))
    /\ ((forall log call, ca_status eng log call <> CA_SUCCESS) ->
        fst (eval m w) = false) in
  ok (gsound_context_open eng self error)
  /\ ok (gsound_context_set_driver eng self driver error)
  /\ ok (gsound_context_change_attrs eng self error args)
  /\ ok (gsound_context_change_attrsv eng self attrs error)
  /\ ok (gsound_context_play_simple eng self c error args)
  /\ ok (gsound_context_play_simplev eng self attrs c error)
  /\ ok (gsound_context_cache eng self error args)
  /\ ok (gsound_context_cachev eng self attrs error).
Proof.
  intros ok. subst ok. cbv beta zeta.
  assert (H : forall m : M (bool * GError_loc),
            faithful eng m ->
            (exists call r,
               (call, r) ∈ new_calls w (exec m w)
               /\ eval m w = test_return eng r error) ->
            answered eng (ca_log w) (new_calls w (exec m w))
            /\ (exists call r,
                  (call, r) ∈ new_calls w (exec m w)
                  /\ eval m w = test_return eng r error)
            /\ reports eng error (new_calls w (exec m w)) (eval m w)
            /\ ((forall log call, ca_status eng log call = CA_SUCCESS) ->
                eval m w = (true, error))
            /\ ((forall log call, ca_status eng log call <> CA_SUCCESS) ->
                fst (eval m w) = false)).
  { intros m Hm (call & r & Hin & Hres).
    pose proof (faithful_new_calls eng m w Hm) as Hl.
    split; [exact Hl |]. split; [now exists call, r |].
    destruct (answered_elem eng _ _ call r Hl Hin) as (log' & Hr).
    split; [| split].
    - rewrite Hres. now apply (reports_test_return _ _ call).
    - intros Hall. rewrite Hres, Hr, Hall. apply test_return_success.
    - intros Hnone. rewrite Hres.
      rewrite test_return_failure; [reflexivity |].
      rewrite Hr. apply Hnone. }
  assert (Hfail : forall r res,
            res = test_return eng r error ->
            exists call r',
              (call, r') ∈ [(CaProplistCreate, r)]
              /\ res = test_return eng r' error).
  { intros r res ->. exists CaProplistCreate, r.
    split; [apply elem_of_cons; now left | reflexivity]. }
  assert (Hsub : forall pl fill submit r after rd res,
            res = test_return eng r error ->
            exists call r',
              (call, r') ∈ submission_log pl fill submit r after rd
              /\ res = test_return eng r' error).
  { intros pl fill submit r after rd res ->. exists submit, r.
    split; [apply elem_of_submission_log | reflexivity]. }
  split; [| split; [| split; [| split; [| split; [| split; [| split]]]]]].
  - apply H; [apply faithful_open |].
    unfold gsound_context_open.
    change (wp (self_ca self ≫= fun c0 =>
                ca_context_open eng c0 ≫= fun res =>
                mret (test_return eng res error))
              (fun res w' =>
                 exists call r,
                   (call, r) ∈ new_calls w w'
                   /\ res = test_return eng r error) w).
    repeat wp_step. merge_log. eexists _, r.
    split; [apply elem_of_cons; now left | reflexivity].
  - apply H; [apply faithful_set_driver |].
    unfold gsound_context_set_driver.
    change (wp (self_ca self ≫= fun c0 =>
                ca_context_set_driver eng c0 driver ≫= fun res =>
                mret (test_return eng res error))
              (fun res w' =>
                 exists call r,
                   (call, r) ∈ new_calls w w'
                   /\ res = test_return eng r error) w).
    repeat wp_step. merge_log. eexists _, r.
    split; [apply elem_of_cons; now left | reflexivity].
  - apply H; [apply faithful_change_attrs |].
    apply (wp_change_attrs eng self error args
             (fun res w' => exists call r,
                (call, r) ∈ new_calls w w'
                /\ res = test_return eng r error)).
    + intros r w' _ ->. now apply Hfail.
    + intros pl fill r rd w' _ ->. now apply Hsub.
  - apply H; [apply faithful_change_attrsv |].
    apply (wp_change_attrsv eng self attrs error
             (fun res w' => exists call r,
                (call, r) ∈ new_calls w w'
                /\ res = test_return eng r error)).
    + intros r w' _ ->. now apply Hfail.
    + intros pl fill r rd w' _ ->. now apply Hsub.
  - apply H; [apply faithful_play_simple |].
    apply (wp_play_simple eng self c error args
             (fun res w' => exists call r,
                (call, r) ∈ new_calls w w'
                /\ res = test_return eng r error)).
    + intros r w' _ -> _. now apply Hfail.
    + intros pl fill r after rd w' _ _ -> _. now apply Hsub.
  - apply H; [apply faithful_play_simplev |].
    apply (wp_play_simplev eng self attrs c error
             (fun res w' => exists call r,
                (call, r) ∈ new_calls w w'
                /\ res = test_return eng r error)).
    + intros r w' _ -> _. now apply Hfail.
    + intros pl fill r after rd w' _ _ -> _. now apply Hsub.
  - apply H; [apply faithful_cache |].
    apply (wp_cache eng self error args
             (fun res w' => exists call r,
                (call, r) ∈ new_calls w w'
                /\ res = test_return eng r error)).
    + intros r w' _ ->. now apply Hfail.
    + intros pl fill r rd w' _ ->. now apply Hsub.
  - apply H; [apply faithful_cachev |].
    apply (wp_cachev eng self attrs error
             (fun res w' => exists call r,
                (call, r) ∈ new_calls w w'
                /\ res = test_return eng r error)).
    + intros r w' _ ->. now apply Hfail.
    + intros pl fill r rd w' _ ->. now apply Hsub.
Qed.

End Reports.

(** ** What the operations leave alone *)

Section Frame.

Variable eng : ca_engine.
Context {B : Type} (obs : world -> B).

Lemma preserves_bind {A A' : Type} (m : M A) (f : A -> M A') :
  preserves obs m -> (forall a, preserves obs (f a)) ->
  preserves obs (m ≫= f).
Proof.
  intros Hm Hf w. unfold exec, mbind, M_bind.
  specialize (Hm w). unfold exec in Hm.
  destruct (m w) as [a w1]. cbn in Hm. rewrite <- Hm. apply Hf.
Qed.

Lemma preserves_ret {A : Type} (a : A) : preserves obs (mret a).
Proof. intros w. reflexivity. Qed.

Lemma preserves_gets {A : Type} (f : world -> A) : preserves obs (gets f).
Proof. intros w. reflexivity. Qed.

Lemma preserves_modify (f : world -> world) :
  (forall w, obs (f w) = obs w) -> preserves obs (modify f).
Proof. intros H w. apply H. Qed.

(** The observations that do not read the log. *)
Hypothesis Hlog : forall f w, obs (set_ca_log f w) = obs w.

Lemma preserves_native (c : ca_call) : preserves obs (native eng c).
Proof. intros w. apply Hlog. Qed.

Lemma preserves_hash_table (ht : GHashTable) (pl : option ca_proplist) :
  preserves obs (hash_table_to_prop_list eng ht pl).
Proof.
  induction ht as [| [key value] ht IH]; cbn [hash_table_to_prop_list].
  - apply preserves_ret.
  - apply preserves_bind; [apply preserves_native | intros _; exact IH].
Qed.

Lemma preserves_var_args (args : va_list) (pl : option ca_proplist) :
  preserves obs (var_args_to_prop_list eng args pl).
Proof.
  intros w. destruct (var_args_run eng args pl w) as (r & l & Hrun & _).
  unfold exec. rewrite Hrun. apply Hlog.
Qed.

Lemma preserves_on_cancellable_cancelled (c : GCancellable_ptr)
    (self : nat) :
  preserves obs (on_cancellable_cancelled eng c self).
Proof.
  unfold on_cancellable_cancelled.
  apply preserves_bind; [apply preserves_gets | intros h].
  apply preserves_bind; [apply preserves_native | intros _].
  apply preserves_ret.
Qed.

Lemma preserves_emit_cancelled (c : GCancellable_ptr) (hs : list nat) :
  preserves obs (emit_cancelled (on_cancellable_cancelled eng) c hs).
Proof.
  induction hs as [| self hs IH]; cbn [emit_cancelled].
  - apply preserves_ret.
  - apply preserves_bind;
      [apply preserves_on_cancellable_cancelled | intros _; exact IH].
Qed.

(** The observations that do not read the cancellables either. *)
Hypothesis Hcancellables : forall f w, obs (set_cancellables f w) = obs w.

Lemma preserves_connect_cancellable (self : nat) (c : GCancellable_ptr) :
  preserves obs (connect_cancellable eng self c).
Proof.
  unfold connect_cancellable, g_cancellable_connect.
  destruct (negb (c =? NULL)); [| apply preserves_ret].
  apply preserves_bind; [apply preserves_gets | intros st].
  destruct (cancelled st).
  - apply preserves_on_cancellable_cancelled.
  - now apply preserves_modify.
Qed.

Lemma preserves_cancel (c : GCancellable_ptr) :
  preserves obs (cancel eng c).
Proof.
  unfold cancel, g_cancellable_cancel.
  apply preserves_bind; [apply preserves_gets | intros b].
  destruct ((c =? NULL) || b); [apply preserves_ret |].
  apply preserves_bind; [apply preserves_gets | intros st].
  apply preserves_bind; [now apply preserves_modify | intros _].
  apply preserves_emit_cancelled.
Qed.

Lemma preserves_clear_proplist (pl : option ca_proplist) :
  preserves obs (clear_proplist eng pl).
Proof.
  destruct pl; [| apply preserves_ret].
  apply preserves_bind; [apply preserves_native | intros _].
  apply preserves_ret.
Qed.

End Frame.

Ltac frame_step eng Hlog Hcancellables :=
  lazymatch goal with
  | |- preserves _ (_ ≫= _) => apply preserves_bind; [| intros ?]
  | |- preserves _ (mret _) => apply preserves_ret
  | |- preserves _ (native _ _) => apply (preserves_native eng _ Hlog)
  | |- preserves _ (var_args_to_prop_list _ _ _) =>
      apply (preserves_var_args eng _ Hlog)
  | |- preserves _ (hash_table_to_prop_list _ _ _) =>
      apply (preserves_hash_table eng _ Hlog)
  | |- preserves _ (connect_cancellable _ _ _) =>
      apply (preserves_connect_cancellable eng _ Hlog Hcancellables)
  | |- preserves _ (clear_proplist _ _) =>
      apply (preserves_clear_proplist eng _ Hlog)
  | |- preserves _ (ca_proplist_create _ _) => unfold ca_proplist_create
  | |- preserves _ (ca_context_open _ _) => unfold ca_context_open
  | |- preserves _ (ca_context_set_driver _ _ _) =>
      unfold ca_context_set_driver
  | |- preserves _ (ca_context_change_props_full _ _ _) =>
      unfold ca_context_change_props_full
  | |- preserves _ (ca_context_play_full _ _ _ _ _) =>
      unfold ca_context_play_full
  | |- preserves _ (ca_context_cache_full _ _ _) =>
      unfold ca_context_cache_full
  | |- preserves _ (g_task_return_error _ (Some _)) =>
      unfold g_task_return_error
  | |- preserves _ (g_task_return_error _ None) => unfold g_task_return_error
  | |- preserves _ (g_task_return_error _ ?e) => destruct e
  | |- preserves _ (g_task_propagate_boolean _ _) =>
      unfold g_task_propagate_boolean
  | |- preserves _ (if ?b then _ else _) => destruct b
  | |- preserves _ (let '(_, _) := ?x in _) => destruct x
  | |- preserves _ (match ?x with Some _ => _ | None => _ end) =>
      destruct x
  | |- preserves _ _ => intros ?; reflexivity
  end.

Section Handles.

Variable eng : ca_engine.

(** X4. Only initialisation and finalisation touch the engine handle
    of a context.  Opening, setting the driver, changing attributes,
    playing, caching, finishing an asynchronous play, the completion
    callback, the cancellation listener and the cancellation of a
    token all leave the handle of every context as it was, whether
    they succeed or fail. *)
Theorem operations_keep_handles (self : nat) (c : GCancellable_ptr)
    (driver : cstr) (error : GError_loc) (args : va_list)
    (attrs : GHashTable) (task : nat) (h : option ca_context)
    (id code : Z) :
  preserves contexts (gsound_context_open eng self error)
  /\ preserves contexts (gsound_context_set_driver eng self driver error)
  /\ preserves contexts (gsound_context_change_attrs eng self error args)
  /\ preserves contexts (gsound_context_change_attrsv eng self attrs error)
  /\ preserves contexts (gsound_context_play_simple eng self c error args)
  /\ preserves contexts (gsound_context_play_simplev eng self attrs c error)
  /\ preserves contexts (gsound_context_play_full eng self c args)
  /\ preserves contexts (gsound_context_play_fullv eng self attrs c)
  /\ preserves contexts (gsound_context_play_full_finish self task error)
  /\ preserves contexts (gsound_context_cache eng self error args)
  /\ preserves contexts (gsound_context_cachev eng self attrs error)
  /\ preserves contexts (on_ca_play_full_finished eng h id code task)
  /\ preserves contexts (on_cancellable_cancelled eng c self)
  /\ preserves contexts (cancel eng c).
Proof.
  pose (Hlog := fun f w => eq_refl (contexts (set_ca_log f w))).
  pose (Hcs := fun f w => eq_refl (contexts (set_cancellables f w))).
  repeat lazymatch goal with |- _ /\ _ => split end.
  14: apply (preserves_cancel eng _ Hlog Hcs).
  13: apply (preserves_on_cancellable_cancelled eng _ Hlog).
  all: unfold gsound_context_open, gsound_context_set_driver,
         gsound_context_change_attrs, gsound_context_change_attrsv,
         gsound_context_play_simple, gsound_context_play_simplev,
         gsound_context_play_full, gsound_context_play_fullv,
         gsound_context_play_full_finish, gsound_context_cache,
         gsound_context_cachev, on_ca_play_full_finished.
  all: repeat frame_step eng Hlog Hcs.
Qed.





End Handles.

(** ** The life of a context *)

Section Life.

Variable eng : ca_engine.

(** X6. A first initialisation that succeeds throughout.  When
    [ca_context_create], [ca_proplist_create] and the commit all
    succeed, [gsound_context_real_init] returns TRUE with the error
    location untouched and the context holds the new handle.  On the
    way it sets the application name, and the application id exactly
    when the process has a default application, whatever
    [ca_proplist_sets] answers; it commits that list to the new handle
    and destroys the list. *)
Theorem init_commits_defaults (w : world) (self : nat)
    (c : GCancellable_ptr) (error : GError_loc) :
  ca (context_of w self) = None ->
  let m := gsound_context_real_init eng self c error in
  statuses is_context_create (new_calls w (exec m w)) = [CA_SUCCESS] ->
  statuses is_proplist_create (new_calls w (exec m w)) = [CA_SUCCESS] ->
  statuses is_change_props (new_calls w (exec m w)) = [CA_SUCCESS] ->
  eval m w = (true, error)
  /\ exists h pl,
       ca (context_of (exec m w) self) = Some h
       /\ map fst (new_calls w (exec m w))
          = [CaContextCreate; CaProplistCreate]
            ++ default_attribute_calls w (Some pl)
            ++ [CaContextChangePropsFull (Some h) (Some pl);
                CaProplistDestroy pl].
Proof.
  intros Hca m. subst m.
  change (wp (gsound_context_real_init eng self c error) (fun res w' =>
    statuses is_context_create (new_calls w w') = [CA_SUCCESS] ->
    statuses is_proplist_create (new_calls w w') = [CA_SUCCESS] ->
    statuses is_change_props (new_calls w w') = [CA_SUCCESS] ->
    res = (true, error)
    /\ exists h pl,
         ca (context_of w' self) = Some h
         /\ map fst (new_calls w w')
            = [CaContextCreate; CaProplistCreate]
              ++ default_attribute_calls w (Some pl)
              ++ [CaContextChangePropsFull (Some h) (Some pl);
                  CaProplistDestroy pl]) w).
  unfold gsound_context_real_init, default_attribute_calls.
  wp_step. wp_step. rewrite Hca. wp_step. wp_step. wp_step.
  2:{ rewrite test_return_failure by assumption. repeat wp_step.
      merge_log. cbn. intros [= ->]. congruence. }
  all: do 10 wp_step;
    cbn [default_application application_name log_append set_ca_log
         set_contexts];
    destruct (default_application w);
    repeat wp_step;
    rewrite !context_of_log_append, context_of_insert; cbn [ca];
    match goal with
    | |- wp (let '(_, _) := test_return _ ?r _ in _) _ _ =>
        destruct (Z.eq_dec r CA_SUCCESS) as [-> | Hr'];
        [ rewrite test_return_success
        | rewrite test_return_failure by assumption ]
    end;
    repeat wp_step;
    try (apply wp_clear_self_ca;
         rewrite !context_of_log_append, context_of_insert; cbn [ca];
         intros rd; repeat wp_step);
    merge_log; cbn [statuses List.filter map fst snd is_context_create
                    is_proplist_create is_change_props];
    intros _ Hpl Hcommit;
    try (injection Hpl as Hpl; congruence);
    try (injection Hcommit as Hcommit; congruence).
  all: split; [reflexivity |]; eexists _, _;
    rewrite context_of_log_append, context_of_insert; cbn [ca];
    split; reflexivity.
Qed.

Lemma finalize_with_handle (w : world) (self : nat) (h : ca_context) :
  ca (context_of w self) = Some h ->
  exec (gsound_context_finalize eng self) w
  = log_append
      [(CaContextDestroy h, ca_status eng (ca_log w) (CaContextDestroy h))]
      (set_contexts <[self := {| ca := None |}]> w).
Proof.
  intros Hca.
  unfold gsound_context_finalize, clear_self_ca, self_ca, set_self_ca,
    exec, gets, modify, native, mbind, M_bind, mret, M_ret.
  cbn [fst snd]. now rewrite Hca.
Qed.

Lemma finalize_without_handle (w : world) (self : nat) :
  ca (context_of w self) = None ->
  exec (gsound_context_finalize eng self) w = w.
Proof.
  intros Hca.
  unfold gsound_context_finalize, clear_self_ca, self_ca, exec, gets,
    mbind, M_bind, mret, M_ret.
  cbn [fst snd]. now rewrite Hca.
Qed.

(** X7. Finalisation destroys the handle of the context, if it has
    one, with a single [ca_context_destroy], and leaves the context
    without a handle; on a context without a handle it does nothing.
    A second finalisation therefore changes nothing: the handle is
    never destroyed twice. *)
Theorem finalize_destroys_once (w : world) (self : nat) :
  let w' := exec (gsound_context_finalize eng self) w in
  match ca (context_of w self) with
  | Some h => map fst (new_calls w w') = [CaContextDestroy h]
  | None => w' = w
  end
  /\ ca (context_of w' self) = None
  /\ exec (gsound_context_finalize eng self) w' = w'.
Proof.
  intros w'. subst w'.
  destruct (ca (context_of w self)) as [h |] eqn:Hca.
  - rewrite (finalize_with_handle w self h Hca).
    assert (Hnone : ca (context_of
              (log_append
                 [(CaContextDestroy h,
                   ca_status eng (ca_log w) (CaContextDestroy h))]
                 (set_contexts <[self := {| ca := None |}]> w)) self)
            = None)
      by now rewrite context_of_log_append, context_of_insert.
    split; [| split; [exact Hnone |]].
    + now rewrite new_calls_log_append by reflexivity.
    + now apply finalize_without_handle.
  - rewrite (finalize_without_handle w self Hca).
    split; [reflexivity |]. split; [exact Hca |].
    now apply finalize_without_handle.
Qed.

Lemma faithful_new (obj : nat) (c : GCancellable_ptr)
    (error : GError_loc) :
  faithful eng (gsound_context_new eng obj c error).
Proof.
  unfold gsound_context_new, gsound_context_real_init,
    gsound_context_finalize.
  repeat faithful_step eng.
Qed.

(** X8. [gsound_context_new] calls [ca_context_create] first and
    returns the new object exactly when the engine accepts that call.
    When the engine refuses, NULL is returned with the error made from
    the status of that call; the call is the only native call made,
    and the object is released. *)
Theorem new_returns_object_iff_created (w : world) (obj : nat)
    (c : GCancellable_ptr) (error : GError_loc) :
  let m := gsound_context_new eng obj c error in
  let created := ca_status eng (ca_log w) CaContextCreate in
  fst (eval m w) = (if created =? CA_SUCCESS then Some obj else None)
  /\ head (new_calls w (exec m w)) = Some (CaContextCreate, created)
  /\ match fst (eval m w) with
     | Some o =>
         o = obj
         /\ statuses is_context_create (new_calls w (exec m w))
            = [CA_SUCCESS]
     | None =>
         exists r,
           r <> CA_SUCCESS
           /\ new_calls w (exec m w) = [(CaContextCreate, r)]
           /\ snd (eval m w)
              = g_set_error_literal error GSOUND_ERROR r (ca_strerror eng r)
           /\ contexts (exec m w) = delete obj (contexts w)
     end.
Proof.
  intros m created. subst m created.
  pose proof (faithful_new_calls eng _ w (faithful_new obj c error)) as Hl.
  revert Hl.
  change (wp (gsound_context_new eng obj c error) (fun res w' =>
    answered eng (ca_log w) (new_calls w w') ->
    fst res
    = (if ca_status eng (ca_log w) CaContextCreate =? CA_SUCCESS
       then Some obj else None)
    /\ head (new_calls w w')
       = Some (CaContextCreate, ca_status eng (ca_log w) CaContextCreate)
    /\ match fst res with
       | Some o =>
           o = obj
           /\ statuses is_context_create (new_calls w w') = [CA_SUCCESS]
       | None =>
           exists r,
             r <> CA_SUCCESS
             /\ new_calls w w' = [(CaContextCreate, r)]
             /\ snd res
                = g_set_error_literal error GSOUND_ERROR r
                    (ca_strerror eng r)
             /\ contexts w' = delete obj (contexts w)
       end) w).
  assert (Hkey : forall l,
            Forall (fun e : ca_event => is_init_key (fst e) = false) l ->
            statuses is_context_create l = []).
  { intros l. apply statuses_none. intros c0 E. unfold is_init_key.
    now rewrite E. }
  unfold gsound_context_new. wp_step. wp_step. wp_step.
  apply wp_real_init; [now rewrite context_of_insert | ..].
  - intros r Hr. cbn [negb]. wp_step.
    unfold gsound_context_finalize. apply wp_clear_self_ca.
    rewrite context_of_log_append, context_of_insert. cbn [ca].
    repeat wp_step. cbn [fst snd]. merge_log.
    intros [E _]. cbn [fst snd] in E. rewrite <- E.
    destruct (Z.eqb_spec r CA_SUCCESS); [contradiction |].
    split; [reflexivity |]. split; [reflexivity |]. exists r.
    split; [assumption |]. split; [reflexivity |]. split; [reflexivity |].
    cbn. now rewrite delete_insert_eq.
  - intros h pl evs rest Hevs Hrest. cbn [negb]. wp_step. cbn [fst].
    merge_log. intros [E _]. cbn [fst snd] in E. rewrite <- E.
    split; [reflexivity |]. split; [reflexivity |].
    split; [reflexivity |].
    rewrite statuses_cons, statuses_app, statuses_cons.
    cbn [is_context_create]. now rewrite !Hkey.
  - intros h pl evs r rest rd Hr Hevs Hrest. cbn [negb]. wp_step. cbn [fst].
    merge_log. intros [E _]. cbn [fst snd] in E. rewrite <- E.
    split; [reflexivity |]. split; [reflexivity |].
    split; [reflexivity |].
    rewrite statuses_cons, statuses_app, statuses_cons, statuses_app.
    cbn [is_context_create]. rewrite !Hkey by assumption. reflexivity.
Qed.

End Life.

(** ** Connecting and running the cancellation listener *)

Section Listener.

Variable eng : ca_engine.

Lemma cancellable_of_log_append (evs : list ca_event) (w : world)
    (c : GCancellable_ptr) :
  cancellable_of (log_append evs w) c = cancellable_of w c.
Proof. reflexivity. Qed.

Lemma cancellable_of_set_tasks f (w : world) (c : GCancellable_ptr) :
  cancellable_of (set_tasks f w) c = cancellable_of w c.
Proof. reflexivity. Qed.

Lemma context_of_set_tasks f (w : world) (self : nat) :
  context_of (set_tasks f w) self = context_of w self.
Proof. reflexivity. Qed.

Lemma wp_connect_cancellable_exact (self : nat) (c : GCancellable_ptr)
    (Q : unit -> world -> Prop) w :
  (negb (c =? NULL) = false -> Q tt w) ->
  (negb (c =? NULL) = true -> cancelled (cancellable_of w c) = true ->
   forall r, Q tt (log_append
                     [(CaContextCancel (ca (context_of w self))
                         (g_direct_hash c), r)] w)) ->
  (negb (c =? NULL) = true -> cancelled (cancellable_of w c) = false ->
   Q tt (set_cancellables <[c := connected self (cancellable_of w c)]> w)) ->
  wp (connect_cancellable eng self c) Q w.
Proof.
  intros Hnull Hdead Hlive. unfold connect_cancellable.
  destruct (negb (c =? NULL)); [| wp_step; now apply Hnull].
  unfold g_cancellable_connect. repeat wp_step.
  destruct (cancelled (cancellable_of w c)).
  - apply wp_on_cancellable_cancelled. now apply Hdead.
  - wp_step. now apply Hlive.
Qed.

Lemma cancel_requests_submission_log (pl : ca_proplist)
    (fill after : list ca_event) (submit : ca_call) (r rd : Z) :
  sets_only fill -> is_cancel submit = false ->
  cancel_requests (submission_log pl fill submit r after rd)
  = cancel_requests after.
Proof.
  intros Hfill Hsubmit. unfold cancel_requests, submission_log.
  cbn [omap list_omap cancel_request fst]. rewrite omap_app.
  rewrite (omap_nothing cancel_request fill)
    by now apply sets_only_unseen.
  cbn [app omap list_omap]. rewrite omap_app.
  replace (cancel_request (submit, r)) with (@None (option ca_context * Z))
    by (destruct submit; cbn in *; congruence).
  cbn. now rewrite app_nil_r.
Qed.

Lemma play_listener_failed (self : nat) (c : GCancellable_ptr) (r : Z)
    (w w' : world) :
  r <> CA_SUCCESS -> contexts w' = contexts w ->
  cancellables w' = cancellables w ->
  play_listener self c w [(CaProplistCreate, r)] w'.
Proof.
  intros Hr Hc Hcs. unfold play_listener.
  rewrite got_proplist_failed by assumption. now cbn.
Qed.

Lemma play_listener_submitted (self : nat) (c : GCancellable_ptr)
    (pl : ca_proplist) (fill after : list ca_event) (submit : ca_call)
    (r rd : Z) (w w' : world) :
  sets_only fill -> cancels_only c after ->
  is_proplist_create submit = false -> is_cancel submit = false ->
  contexts w' = contexts w ->
  (let live := negb (c =? NULL) && negb (cancelled (cancellable_of w c)) in
   cancellables w'
   = if live then <[c := connected self (cancellable_of w c)]> (cancellables w)
     else cancellables w) ->
  (let dead := negb (c =? NULL) && cancelled (cancellable_of w c) in
   cancel_requests after
   = if dead then [(ca (context_of w self), g_direct_hash c)] else []) ->
  play_listener self c w (submission_log pl fill submit r after rd) w'.
Proof.
  intros Hfill Hafter Hcreate Hcancel Hc Hcs Hreq. unfold play_listener.
  rewrite (got_proplist_submitted pl fill after c) by assumption.
  rewrite cancel_requests_submission_log by assumption.
  cbn [andb]. auto.
Qed.

(** The end of every play function, from the submission on. *)
Ltac play_tail self c pl fill submit w :=
  repeat wp_step;
  apply wp_connect_cancellable_exact;
    [ intros ? | intros ? ? ? | intros ? ? ];
  repeat wp_step;
  match goal with
  | |- context [test_return _ ?r _] =>
      let Hr := fresh "Hr" in
      destruct (Z.eq_dec r CA_SUCCESS) as [-> | Hr];
      [ rewrite ?test_return_success
      | rewrite ?test_return_failure by assumption ]
  | _ => idtac
  end;
  cbn [negb g_set_error_literal error_of];
  try (unfold g_task_return_error, update_task);
  repeat wp_step;
  merge_log;
  rewrite ?context_of_log_append, ?cancellable_of_log_append,
    ?context_of_set_tasks, ?cancellable_of_set_tasks in *;
  match goal with
  | |- play_listener _ _ _ (_ :: fill ++ (submit, ?r) :: ?rest) _ =>
      match rest with
      | [(?d, ?rd)] =>
          apply (play_listener_submitted self c pl fill [] submit r rd)
      | [?e; (?d, ?rd)] =>
          apply (play_listener_submitted self c pl fill [e] submit r rd)
      end
  end;
  try assumption; try reflexivity;
  try (now repeat constructor);
  cbv zeta;
  cbn [cancellable_of cancellables contexts log_append set_ca_log
       set_tasks set_cancellables cancel_requests omap list_omap
       cancel_request fst];
  fold (cancellable_of w c);
  repeat match goal with
         | H : negb (_ =? NULL) = _ |- _ => rewrite H
         | H : cancelled (cancellable_of _ _) = _ |- _ => rewrite H
         end;
  reflexivity.

Lemma play_simple_listener (self : nat) (c : GCancellable_ptr)
    (error : GError_loc) (args : va_list) (w : world) :
  let m := gsound_context_play_simple eng self c error args in
  play_listener self c w (new_calls w (exec m w)) (exec m w).
Proof.
  intros m. subst m.
  change (wp (gsound_context_play_simple eng self c error args)
            (fun _ w' => play_listener self c w (new_calls w w') w') w).
  unfold gsound_context_play_simple. wp_step. wp_step.
  2:{ rewrite negb_eqb_success_true by assumption. wp_step. merge_log.
      now apply play_listener_failed. }
  rewrite negb_eqb_success_false. wp_step.
  apply wp_var_args_to_prop_list. intros _ fill Hfill.
  wp_step. wp_step. wp_step. unfold ca_context_play_full.
  apply wp_native. intros r _.
  play_tail self c pl fill
    (CaContextPlayFull (ca (context_of w self)) (g_direct_hash c)
       (Some pl) None) w.
Qed.

Lemma play_simplev_listener (self : nat) (attrs : GHashTable)
    (c : GCancellable_ptr) (error : GError_loc) (w : world) :
  let m := gsound_context_play_simplev eng self attrs c error in
  play_listener self c w (new_calls w (exec m w)) (exec m w).
Proof.
  intros m. subst m.
  change (wp (gsound_context_play_simplev eng self attrs c error)
            (fun _ w' => play_listener self c w (new_calls w w') w') w).
  unfold gsound_context_play_simplev. wp_step. wp_step.
  2:{ rewrite test_return_failure by assumption. repeat wp_step. merge_log.
      now apply play_listener_failed. }
  rewrite test_return_success. cbn [negb]. wp_step.
  apply wp_hash_table_to_prop_list. intros fill Hfill.
  apply sets_of_hash_table in Hfill.
  wp_step. wp_step. wp_step. unfold ca_context_play_full.
  apply wp_native. intros r _.
  play_tail self c pl fill
    (CaContextPlayFull (ca (context_of w self)) (g_direct_hash c)
       (Some pl) None) w.
Qed.

Lemma play_full_listener (self : nat) (c : GCancellable_ptr)
    (args : va_list) (w : world) :
  let m := gsound_context_play_full eng self c args in
  play_listener self c w (new_calls w (exec m w)) (exec m w).
Proof.
  intros m. subst m.
  change (wp (gsound_context_play_full eng self c args)
            (fun _ w' => play_listener self c w (new_calls w w') w') w).
  unfold gsound_context_play_full. wp_step. apply wp_g_task_new.
  wp_step. wp_step.
  2:{ rewrite test_return_failure by assumption.
      cbn [negb g_set_error_literal error_of].
      unfold g_task_return_error, update_task. wp_step. merge_log.
      now apply play_listener_failed. }
  rewrite test_return_success. cbn [negb]. wp_step.
  apply wp_var_args_to_prop_list. intros _ fill Hfill.
  wp_step. wp_step. wp_step. unfold ca_context_play_full.
  apply wp_native. intros r _.
  play_tail self c pl fill
    (CaContextPlayFull (ca (context_of w self)) (g_direct_hash c)
       (Some pl) (Some (length (tasks w)))) w.
Qed.

Lemma play_fullv_listener (self : nat) (attrs : GHashTable)
    (c : GCancellable_ptr) (w : world) :
  let m := gsound_context_play_fullv eng self attrs c in
  play_listener self c w (new_calls w (exec m w)) (exec m w).
Proof.
  intros m. subst m.
  change (wp (gsound_context_play_fullv eng self attrs c)
            (fun _ w' => play_listener self c w (new_calls w w') w') w).
  unfold gsound_context_play_fullv. wp_step. apply wp_g_task_new.
  wp_step. wp_step.
  2:{ rewrite test_return_failure by assumption.
      cbn [negb g_set_error_literal error_of].
      unfold g_task_return_error, update_task. wp_step. merge_log.
      now apply play_listener_failed. }
  rewrite test_return_success. cbn [negb]. wp_step.
  apply wp_hash_table_to_prop_list. intros fill Hfill.
  apply sets_of_hash_table in Hfill.
  wp_step. wp_step. wp_step. unfold ca_context_play_full.
  apply wp_native. intros r _.
  play_tail self c pl fill
    (CaContextPlayFull (ca (context_of w self)) (g_direct_hash c)
       (Some pl) (Some (length (tasks w)))) w.
Qed.

Lemma wp_emit_cancelled_exact (c : GCancellable_ptr) (hs : list nat)
    (Q : unit -> world -> Prop) w :
  (forall evs,
     cancel_requests evs = listener_requests w c hs ->
     length evs = length hs ->
     Q tt (log_append evs w)) ->
  wp (emit_cancelled (on_cancellable_cancelled eng) c hs) Q w.
Proof.
  revert Q w. induction hs as [| self hs IH]; intros Q w H.
  - cbn [emit_cancelled]. wp_step. rewrite <- (log_append_nil w).
    now apply H.
  - cbn [emit_cancelled]. wp_step.
    apply wp_on_cancellable_cancelled. intros r.
    apply IH. intros evs Hevs Hlen. merge_log.
    apply H; [| cbn; now rewrite Hlen].
    unfold cancel_requests in *. cbn. now rewrite Hevs.
Qed.

Lemma cancel_run (c : GCancellable_ptr) (w : world) :
  let st := cancellable_of w c in
  if (c =? NULL) || cancelled st then exec (cancel eng c) w = w
  else
    exists evs,
      exec (cancel eng c) w
      = log_append evs
          (set_cancellables
             <[c := {| cancelled := true; handlers := handlers st |}]> w)
      /\ cancel_requests evs = listener_requests w c (handlers st)
      /\ length evs = length (handlers st).
Proof.
  intros st. subst st.
  change (wp (cancel eng c) (fun _ w' =>
    if (c =? NULL) || cancelled (cancellable_of w c) then w' = w
    else
      exists evs,
        w' = log_append evs
               (set_cancellables
                  <[c := {| cancelled := true;
                            handlers := handlers (cancellable_of w c) |}]>
                  w)
        /\ cancel_requests evs
           = listener_requests w c (handlers (cancellable_of w c))
        /\ length evs = length (handlers (cancellable_of w c))) w).
  unfold cancel, g_cancellable_cancel, g_cancellable_is_cancelled.
  wp_step. wp_step.
  destruct (c =? NULL) eqn:Hnull; cbn [negb andb orb]; [now wp_step |].
  destruct (cancelled (cancellable_of w c)) eqn:Hdead; [now wp_step |].
  repeat wp_step. apply wp_emit_cancelled_exact. intros evs Hreq Hlen.
  exists evs. now repeat split.
Qed.

(** X9. Triggering a cancellable that is live runs every listener
    connected to it, in the order of connection: the native engine
    gets one cancel request per listener, each on the handle its
    context holds at that moment and with the token of the
    cancellable, and nothing else; the cancellable is then cancelled.
    Triggering NULL, or a cancellable that is already cancelled,
    changes nothing. *)
Theorem cancel_runs_every_listener (c : GCancellable_ptr) (w : world) :
  let st := cancellable_of w c in
  let w' := exec (cancel eng c) w in
  if (c =? NULL) || cancelled st then w' = w
  else
    cancel_requests (new_calls w w') = listener_requests w c (handlers st)
    /\ length (new_calls w w') = length (handlers st)
    /\ cancellable_of w' c
       = {| cancelled := true; handlers := handlers st |}.
Proof.
  intros st w'. subst st w'. pose proof (cancel_run c w) as H. cbv zeta in H.
  destruct ((c =? NULL) || cancelled (cancellable_of w c)); [exact H |].
  destruct H as (evs & -> & Hreq & Hlen). merge_log.
  split; [assumption |]. split; [assumption |].
  unfold cancellable_of. cbn. now rewrite lookup_insert_eq.
Qed.

End Listener.

(** ** Submitting a sound *)

Section Submission.

Variable eng : ca_engine.

(** A log that the engine answered and that has one of the two shapes
    of a play is the outcome of that play. *)
Lemma play_outcome_refused (self : nat) (c : GCancellable_ptr)
    (cb : option nat) (w : world) (r : Z) :
  answered eng (ca_log w) [(CaProplistCreate, r)] -> r <> CA_SUCCESS ->
  play_outcome eng self c cb w [(CaProplistCreate, r)] r.
Proof.
  intros Hl Hr. split; [assumption |].
  destruct Hl as [E _]. cbn [fst snd] in E.
  unfold proplist_granted. rewrite <- E.
  destruct (Z.eqb_spec r CA_SUCCESS); [contradiction | now split].
Qed.

Lemma play_outcome_granted (self : nat) (c : GCancellable_ptr)
    (cb : option nat) (w : world) (pl : ca_proplist)
    (fill after : list ca_event) (r rd : Z) :
  let play := CaContextPlayFull (ca (context_of w self))
                (g_direct_hash c) (Some pl) cb in
  answered eng (ca_log w) (submission_log pl fill play r after rd) ->
  sets_only fill -> cancels_only c after ->
  play_outcome eng self c cb w (submission_log pl fill play r after rd) r.
Proof.
  intros play Hl Hfill Hafter. split; [assumption |].
  unfold submission_log in Hl. destruct Hl as [E Hl]. cbn [fst snd] in E.
  unfold proplist_granted. rewrite <- E. cbn [Z.eqb CA_SUCCESS].
  exists pl, fill, after, rd. cbv zeta.
  split; [reflexivity |]. split; [assumption |]. split; [assumption |].
  apply answered_app in Hl. destruct Hl as [_ [Hr _]]. cbn [fst snd] in Hr.
  rewrite <- app_assoc in Hr. exact Hr.
Qed.

Lemma play_simple_outcome (self : nat) (c : GCancellable_ptr)
    (error : GError_loc) (args : va_list) (w : world) :
  let m := gsound_context_play_simple eng self c error args in
  exists r, play_outcome eng self c None w (new_calls w (exec m w)) r
            /\ eval m w = test_return eng r error
            /\ tasks (exec m w) = tasks w.
Proof.
  intros m. subst m.
  pose proof (faithful_new_calls eng _ w
                (faithful_play_simple eng self c error args)) as Hl.
  revert Hl.
  apply (wp_play_simple eng self c error args (fun res w' =>
    answered eng (ca_log w) (new_calls w w') ->
    exists r, play_outcome eng self c None w (new_calls w w') r
              /\ res = test_return eng r error
              /\ tasks w' = tasks w)).
  - intros r w' Hr -> Ht Hl. exists r.
    split; [now apply play_outcome_refused | now split].
  - intros pl fill r after rd w' Hfill Hafter -> Ht Hl. exists r.
    split; [now apply play_outcome_granted | now split].
Qed.

Lemma play_simplev_outcome (self : nat) (attrs : GHashTable)
    (c : GCancellable_ptr) (error : GError_loc) (w : world) :
  let m := gsound_context_play_simplev eng self attrs c error in
  exists r, play_outcome eng self c None w (new_calls w (exec m w)) r
            /\ eval m w = test_return eng r error
            /\ tasks (exec m w) = tasks w.
Proof.
  intros m. subst m.
  pose proof (faithful_new_calls eng _ w
                (faithful_play_simplev eng self attrs c error)) as Hl.
  revert Hl.
  apply (wp_play_simplev eng self attrs c error (fun res w' =>
    answered eng (ca_log w) (new_calls w w') ->
    exists r, play_outcome eng self c None w (new_calls w w') r
              /\ res = test_return eng r error
              /\ tasks w' = tasks w)).
  - intros r w' Hr -> Ht Hl. exists r.
    split; [now apply play_outcome_refused | now split].
  - intros pl fill r after rd w' Hfill Hafter -> Ht Hl. exists r.
    apply sets_of_hash_table in Hfill.
    split; [now apply play_outcome_granted | now split].
Qed.

Lemma play_full_outcome (self : nat) (c : GCancellable_ptr)
    (args : va_list) (w : world) :
  let m := gsound_context_play_full eng self c args in
  exists r, play_outcome eng self c (Some (length (tasks w))) w
              (new_calls w (exec m w)) r
            /\ tasks (exec m w) = tasks w ++ [task_after eng self c r].
Proof.
  intros m. subst m.
  pose proof (faithful_new_calls eng _ w
                (faithful_play_full eng self c args)) as Hl.
  revert Hl.
  apply (wp_play_full eng self c args (fun _ w' =>
    answered eng (ca_log w) (new_calls w w') ->
    exists r, play_outcome eng self c (Some (length (tasks w))) w
                (new_calls w w') r
              /\ tasks w' = tasks w ++ [task_after eng self c r])).
  - intros r w' Hr -> Ht Hl. exists r.
    split; [now apply play_outcome_refused | assumption].
  - intros pl fill r after rd w' Hfill Hafter -> Ht Hl. exists r.
    split; [now apply play_outcome_granted | assumption].
Qed.

Lemma play_fullv_outcome (self : nat) (attrs : GHashTable)
    (c : GCancellable_ptr) (w : world) :
  let m := gsound_context_play_fullv eng self attrs c in
  exists r, play_outcome eng self c (Some (length (tasks w))) w
              (new_calls w (exec m w)) r
            /\ tasks (exec m w) = tasks w ++ [task_after eng self c r].
Proof.
  intros m. subst m.
  pose proof (faithful_new_calls eng _ w
                (faithful_play_fullv eng self attrs c)) as Hl.
  revert Hl.
  apply (wp_play_fullv eng self attrs c (fun _ w' =>
    answered eng (ca_log w) (new_calls w w') ->
    exists r, play_outcome eng self c (Some (length (tasks w))) w
                (new_calls w w') r
              /\ tasks w' = tasks w ++ [task_after eng self c r])).
  - intros r w' Hr -> Ht Hl. exists r.
    split; [now apply play_outcome_refused | assumption].
  - intros pl fill r after rd w' Hfill Hafter -> Ht Hl. exists r.
    apply sets_of_hash_table in Hfill.
    split; [now apply play_outcome_granted | assumption].
Qed.

(** What a play outcome says about the tokens and the statuses. *)
Lemma play_outcome_got_proplist (self : nat) (c : GCancellable_ptr)
    (cb : option nat) (w : world) (l : list ca_event) (r : Z) :
  play_outcome eng self c cb w l r ->
  got_proplist l = proplist_granted eng w.
Proof.
  intros [_ H]. destruct (proplist_granted eng w).
  - destruct H as (pl & fill & after & rd & -> & Hfill & Hafter & _).
    now apply (got_proplist_submitted pl fill after c).
  - destruct H as [-> Hr]. now apply got_proplist_failed.
Qed.

Lemma play_outcome_tokens (self : nat) (c : GCancellable_ptr)
    (cb : option nat) (w : world) (l : list ca_event) (r : Z) :
  play_outcome eng self c cb w l r ->
  play_tokens l = (if proplist_granted eng w then [g_direct_hash c] else [])
  /\ play_callbacks l = (if proplist_granted eng w then [cb] else [])
  /\ statuses is_play l = (if proplist_granted eng w then [r] else []).
Proof.
  intros [_ H]. destruct (proplist_granted eng w).
  - destruct H as (pl & fill & after & rd & -> & Hfill & Hafter & _).
    split; [now apply play_tokens_submitted |]. split.
    + unfold play_callbacks.
      now rewrite (omap_submission_log pl fill after c r rd Hfill Hafter)
        by reflexivity.
    + now rewrite (statuses_submission_log pl fill after c r rd Hfill Hafter)
        by reflexivity.
  - destruct H as [-> Hr]. now repeat split.
Qed.

Lemma play_outcome_accepting (self : nat) (c : GCancellable_ptr)
    (cb : option nat) (w : world) (l : list ca_event) (r : Z) :
  (forall log call, ca_status eng log call = CA_SUCCESS) ->
  play_outcome eng self c cb w l r -> r = CA_SUCCESS.
Proof.
  intros Hall [_ H]. unfold proplist_granted in H. rewrite Hall in H.
  cbn in H. destruct H as (pl & fill & after & rd & _ & _ & _ & ->).
  apply Hall.
Qed.

Lemma play_outcome_refusing (self : nat) (c : GCancellable_ptr)
    (cb : option nat) (w : world) (l : list ca_event) (r : Z) :
  (forall log call,
     is_play call = true -> ca_status eng log call <> CA_SUCCESS) ->
  play_outcome eng self c cb w l r -> r <> CA_SUCCESS.
Proof.
  intros Hnone [_ H]. destruct (proplist_granted eng w).
  - destruct H as (pl & fill & after & rd & _ & _ & _ & ->).
    now apply Hnone.
  - apply H.
Qed.

(** Triggering the cancellable after a play. *)
Lemma cancel_after_play_listener (self : nat) (c : GCancellable_ptr)
    (w w1 : world) (l : list ca_event) :
  play_listener self c w l w1 ->
  got_proplist l = proplist_granted eng w ->
  cancel_requests (new_calls w1 (exec (cancel eng c) w1))
  = requests_after_play eng self c w.
Proof.
  intros (Hc & Hcs & _) Hgot. unfold requests_after_play.
  rewrite Hgot in Hcs.
  pose proof (cancel_run eng c w1) as H. cbv zeta in H.
  destruct (c =? NULL) eqn:Hnull; cbn [negb andb orb] in *.
  { rewrite andb_false_r in Hcs. rewrite H. now rewrite new_calls_same. }
  destruct (cancelled (cancellable_of w c)) eqn:Hdead;
    cbn [negb andb orb] in *.
  { rewrite andb_false_r in Hcs.
    assert (Hst : cancellable_of w1 c = cancellable_of w c)
      by (unfold cancellable_of; now rewrite Hcs).
    rewrite Hst, Hdead in H. rewrite H. now rewrite new_calls_same. }
  destruct (proplist_granted eng w); cbn [andb] in Hcs.
  - assert (Hst : cancellable_of w1 c
                  = connected self (cancellable_of w c)).
    { unfold cancellable_of at 1. rewrite Hcs.
      now rewrite lookup_insert_eq. }
    rewrite Hst in H. cbn [connected cancelled handlers] in H.
    destruct H as (evs & -> & Hreq & _). merge_log. rewrite Hreq.
    unfold listener_requests, context_of. rewrite Hc.
    now rewrite map_app.
  - assert (Hst : cancellable_of w1 c = cancellable_of w c)
      by (unfold cancellable_of; now rewrite Hcs).
    rewrite Hst, Hdead in H.
    destruct H as (evs & -> & Hreq & _). merge_log. rewrite Hreq.
    unfold listener_requests, context_of. rewrite Hc.
    now rewrite app_nil_r.
Qed.

(** C8. [gsound_context_play_simple] and [gsound_context_play_simplev]
    ask the engine for a property list and, when they get one, submit
    the sound with one [ca_context_play_full] call that passes no
    completion callback.  Their result is [test_return] of the status
    [r] that decides the run: the answer of the engine to that call,
    or the refusal of the property list.  So they return TRUE exactly
    when [ca_context_play_full] was called and the engine answered
    [CA_SUCCESS]: on an engine that accepts every call they return
    TRUE and leave the error as it was, on an engine that refuses
    every play they return FALSE.  They make no task: the result does
    not wait for, or depend on, the end of playback. *)
Theorem play_simple_success_iff_accepted (self : nat)
    (c : GCancellable_ptr) (error : GError_loc) (args : va_list)
    (attrs : GHashTable) (w : world) :
  let accepted (m : M (bool * GError_loc)) :=
    let l := new_calls w (exec m w) in
    (exists r, play_outcome eng self c None w l r
               /\ eval m w = test_return eng r error)
    /\ play_callbacks l = (if proplist_granted eng w then [None] else [])
    /\ simple_play_ok (fst (eval m w)) l
    /\ tasks (exec m w) = tasks w
    /\ ((forall log call, ca_status eng log call = CA_SUCCESS) ->
        eval m w = (true, error))
    /\ ((forall log call,
           is_play call = true -> ca_status eng log call <> CA_SUCCESS) ->
        fst (eval m w) = false) in
  accepted (gsound_context_play_simple eng self c error args)
  /\ accepted (gsound_context_play_simplev eng self attrs c error).
Proof.
  intros accepted. subst accepted. cbv beta zeta.
  assert (H : forall m : M (bool * GError_loc),
            (exists r, play_outcome eng self c None w
                         (new_calls w (exec m w)) r
                       /\ eval m w = test_return eng r error
                       /\ tasks (exec m w) = tasks w) ->
            (exists r, play_outcome eng self c None w
                         (new_calls w (exec m w)) r
                       /\ eval m w = test_return eng r error)
            /\ play_callbacks (new_calls w (exec m w))
               = (if proplist_granted eng w then [None] else [])
            /\ simple_play_ok (fst (eval m w)) (new_calls w (exec m w))
            /\ tasks (exec m w) = tasks w
            /\ ((forall log call, ca_status eng log call = CA_SUCCESS) ->
                eval m w = (true, error))
            /\ ((forall log call,
                   is_play call = true ->
                   ca_status eng log call <> CA_SUCCESS) ->
                fst (eval m w) = false)).
  { intros m (r & Hout & Hres & Ht).
    destruct (play_outcome_tokens self c None w _ r Hout)
      as (_ & Hcb & Hst).
    split; [now exists r |]. split; [exact Hcb |].
    split; [| split; [exact Ht |]].
    - split.
      + rewrite Hres, test_return_true, Hst.
        destruct Hout as [_ Hout].
        destruct (proplist_granted eng w).
        * split; congruence.
        * destruct Hout as [_ Hr]. split; [congruence | discriminate].
      + rewrite Hcb. destruct (proplist_granted eng w);
          now repeat constructor.
    - split.
      + intros Hall. rewrite Hres.
        now rewrite (play_outcome_accepting self c None w _ r Hall Hout).
      + intros Hnone. rewrite Hres.
        rewrite (test_return_failure eng r error); [reflexivity |].
        now apply (play_outcome_refusing self c None w _ r Hnone Hout). }
  split; apply H.
  - apply (play_simple_outcome self c error args w).
  - apply (play_simplev_outcome self attrs c error w).
Qed.

(** C7. The request token is [g_direct_hash] of the cancellation
    object.  Each of the four play functions, when the engine grants
    it a property list, submits exactly one request, with that token,
    and submits none otherwise.  The listener the play connects passes
    the same token to [ca_context_cancel]: when the cancellable was
    cancelled already the play itself requests the cancellation, with
    that token, and when the cancellable is triggered after the play
    the engine gets, after the requests of the listeners connected
    before, the request of this play, on the handle of its context
    and with that token.  Triggering a cancellable runs the listeners
    connected to it, and every cancel request made for it carries
    that token. *)
Theorem request_token_deterministic (self : nat) (c : GCancellable_ptr)
    (error : GError_loc) (args : va_list) (attrs : GHashTable) (w : world) :
  let granted := proplist_granted eng w in
  let dead := negb (c =? NULL) && cancelled (cancellable_of w c) in
  let submitted {A : Type} (m : M A) :=
    let l := new_calls w (exec m w) in
    got_proplist l = granted
    /\ play_tokens l = (if granted then [g_direct_hash c] else [])
    /\ cancel_requests l
       = (if granted && dead
          then [(ca (context_of w self), g_direct_hash c)] else [])
    /\ cancel_requests
         (new_calls (exec m w) (exec (cancel eng c) (exec m w)))
       = requests_after_play eng self c w in
  submitted (gsound_context_play_simple eng self c error args)
  /\ submitted (gsound_context_play_simplev eng self attrs c error)
  /\ submitted (gsound_context_play_full eng self c args)
  /\ submitted (gsound_context_play_fullv eng self attrs c)
  /\ cancel_tokens
       (new_calls w (exec (on_cancellable_cancelled eng c self) w))
     = [g_direct_hash c]
  /\ Forall (fun t => t = g_direct_hash c)
       (cancel_tokens (new_calls w (exec (cancel eng c) w)))
  /\ cancel_requests (new_calls w (exec (cancel eng c) w))
     = (if (c =? NULL) || cancelled (cancellable_of w c) then []
        else listener_requests w c (handlers (cancellable_of w c))).
Proof.
  intros granted dead submitted. subst granted dead submitted.
  cbv beta zeta.
  assert (H : forall (A : Type) (m : M A) cb r,
            play_outcome eng self c cb w (new_calls w (exec m w)) r ->
            play_listener self c w (new_calls w (exec m w)) (exec m w) ->
            got_proplist (new_calls w (exec m w)) = proplist_granted eng w
            /\ play_tokens (new_calls w (exec m w))
               = (if proplist_granted eng w then [g_direct_hash c] else [])
            /\ cancel_requests (new_calls w (exec m w))
               = (if proplist_granted eng w
                     && (negb (c =? NULL) && cancelled (cancellable_of w c))
                  then [(ca (context_of w self), g_direct_hash c)] else [])
            /\ cancel_requests
                 (new_calls (exec m w) (exec (cancel eng c) (exec m w)))
               = requests_after_play eng self c w).
  { intros A m cb r Hout Hlisten.
    pose proof (play_outcome_got_proplist self c cb w _ r Hout) as Hgot.
    split; [exact Hgot |].
    split; [apply (play_outcome_tokens self c cb w _ r Hout) |].
    split.
    - destruct Hlisten as (_ & _ & Hreq). now rewrite <- Hgot.
    - now apply (cancel_after_play_listener self c w _ _ Hlisten). }
  split; [| split; [| split; [| split; [| split; [| split]]]]].
  - destruct (play_simple_outcome self c error args w) as (r & Hout & _).
    apply (H _ _ None r Hout).
    apply (play_simple_listener eng self c error args w).
  - destruct (play_simplev_outcome self attrs c error w) as (r & Hout & _).
    apply (H _ _ None r Hout).
    apply (play_simplev_listener eng self attrs c error w).
  - destruct (play_full_outcome self c args w) as (r & Hout & _).
    apply (H _ _ _ r Hout).
    apply (play_full_listener eng self c args w).
  - destruct (play_fullv_outcome self attrs c w) as (r & Hout & _).
    apply (H _ _ _ r Hout).
    apply (play_fullv_listener eng self attrs c w).
  - apply (wp_on_cancellable_cancelled eng c self (fun _ w' =>
      cancel_tokens (new_calls w w') = [g_direct_hash c])).
    intros r. now merge_log.
  - apply (wp_cancel eng c (fun _ w' =>
      Forall (fun t => t = g_direct_hash c)
        (cancel_tokens (new_calls w w')))).
    intros evs f Hevs. merge_log. now apply cancel_tokens_cancels_only.
  - pose proof (cancel_run eng c w) as H0. cbv zeta in H0.
    destruct ((c =? NULL) || cancelled (cancellable_of w c)).
    + rewrite H0. now rewrite new_calls_same.
    + destruct H0 as (evs & -> & Hreq & _). now merge_log.
Qed.

End Submission.

(** ** What a play leaves behind *)

Section AfterPlay.

Variable eng : ca_engine.

(** X10. A play function connects its cancellation listener exactly
    when the engine granted it a property list and it was given a
    cancellable that is not cancelled yet, whether or not the engine
    then accepted the submission.  The listener of the context is
    added after those already connected; no other cancellable
    changes.  With a NULL cancellable, with one that is cancelled
    already, or without a property list, the cancellables are left as
    they were. *)
Theorem play_connects_listener (self : nat) (c : GCancellable_ptr)
    (error : GError_loc) (args : va_list) (attrs : GHashTable)
    (w : world) :
  let live := negb (c =? NULL) && negb (cancelled (cancellable_of w c)) in
  let connects {A : Type} (m : M A) :=
    cancellables (exec m w)
    = if proplist_granted eng w && live
      then <[c := connected self (cancellable_of w c)]> (cancellables w)
      else cancellables w in
  connects (gsound_context_play_simple eng self c error args)
  /\ connects (gsound_context_play_simplev eng self attrs c error)
  /\ connects (gsound_context_play_full eng self c args)
  /\ connects (gsound_context_play_fullv eng self attrs c).
Proof.
  intros live connects. subst live connects. cbv beta.
  assert (H : forall (A : Type) (m : M A) cb r,
            play_outcome eng self c cb w (new_calls w (exec m w)) r ->
            play_listener self c w (new_calls w (exec m w)) (exec m w) ->
            cancellables (exec m w)
            = if proplist_granted eng w
                 && (negb (c =? NULL)
                     && negb (cancelled (cancellable_of w c)))
              then <[c := connected self (cancellable_of w c)]>
                     (cancellables w)
              else cancellables w).
  { intros A m cb r Hout (_ & Hcs & _).
    now rewrite (play_outcome_got_proplist eng self c cb w _ r Hout)
      in Hcs. }
  split; [| split; [| split]].
  - destruct (play_simple_outcome eng self c error args w)
      as (r & Hout & _).
    apply (H _ _ None r Hout).
    apply (play_simple_listener eng self c error args w).
  - destruct (play_simplev_outcome eng self attrs c error w)
      as (r & Hout & _).
    apply (H _ _ None r Hout).
    apply (play_simplev_listener eng self attrs c error w).
  - destruct (play_full_outcome eng self c args w) as (r & Hout & _).
    apply (H _ _ _ r Hout).
    apply (play_full_listener eng self c args w).
  - destruct (play_fullv_outcome eng self attrs c w) as (r & Hout & _).
    apply (H _ _ _ r Hout).
    apply (play_fullv_listener eng self attrs c w).
Qed.

(** X11. What an asynchronous play leaves behind.  Both
    [gsound_context_play_full] and [gsound_context_play_fullv] make
    exactly one task, for the context and the cancellable they were
    given, and ask the engine for a property list.  When they get it
    they submit the sound once, with [on_ca_play_full_finished] and
    the new task as completion callback.  When the engine accepts the
    submission the task is left pending; when the engine refuses the
    property list, or the submission, the task has failed at once
    with the error made from the status of that call. *)
Theorem async_play_task (self : nat) (c : GCancellable_ptr)
    (args : va_list) (attrs : GHashTable) (w : world) :
  let outcome (m : M unit) :=
    let l := new_calls w (exec m w) in
    (exists r,
       play_outcome eng self c (Some (length (tasks w))) w l r
       /\ tasks (exec m w) = tasks w ++ [task_after eng self c r])
    /\ play_callbacks l
       = (if proplist_granted eng w then [Some (length (tasks w))] else [])
    /\ ((forall log call, ca_status eng log call = CA_SUCCESS) ->
        tasks (exec m w) = tasks w ++ [new_task self c]) in
  outcome (gsound_context_play_full eng self c args)
  /\ outcome (gsound_context_play_fullv eng self attrs c).
Proof.
  intros outcome. subst outcome. cbv beta zeta.
  assert (H : forall m : M unit,
            (exists r,
               play_outcome eng self c (Some (length (tasks w))) w
                 (new_calls w (exec m w)) r
               /\ tasks (exec m w) = tasks w ++ [task_after eng self c r]) ->
            (exists r,
               play_outcome eng self c (Some (length (tasks w))) w
                 (new_calls w (exec m w)) r
               /\ tasks (exec m w) = tasks w ++ [task_after eng self c r])
            /\ play_callbacks (new_calls w (exec m w))
               = (if proplist_granted eng w
                  then [Some (length (tasks w))] else [])
            /\ ((forall log call, ca_status eng log call = CA_SUCCESS) ->
                tasks (exec m w) = tasks w ++ [new_task self c])).
  { intros m (r & Hout & Ht). split; [now exists r |].
    split; [apply (play_outcome_tokens eng self c _ w _ r Hout) |].
    intros Hall. rewrite Ht.
    now rewrite (play_outcome_accepting eng self c _ w _ r Hall Hout). }
  split; apply H.
  - apply (play_full_outcome eng self c args w).
  - apply (play_fullv_outcome eng self attrs c w).
Qed.

End AfterPlay.

(** ** Asynchronous plays *)

Section Async.

Variable eng : ca_engine.

(** X12. [gsound_context_play_full_finish] rejects a result that is
    not a task of the context it is called on, be it no task at all or
    a task of another context: it returns FALSE, sets no error and
    leaves the task as it was. *)
Theorem finish_rejects_foreign_result (self result : nat)
    (error : GError_loc) (w : world) :
  match tasks w !! result with
  | Some t => source_object t <> self
  | None => True
  end ->
  gsound_context_play_full_finish self result error w = ((false, error), w).
Proof.
  intros H.
  unfold gsound_context_play_full_finish, g_task_is_valid, gets, mbind,
    M_bind.
  destruct (tasks w !! result) as [t |]; [| reflexivity].
  apply Nat.eqb_neq in H. now rewrite H.
Qed.

(** The completion callback on a pending task. *)
Lemma on_ca_play_full_finished_pending (h : option ca_context)
    (id code : Z) (t self : nat) (c : GCancellable_ptr) (w : world) :
  tasks w !! t = Some (new_task self c) ->
  exec (on_ca_play_full_finished eng h id code t) w
  = set_tasks (fun ts => <[t := if code =? CA_SUCCESS
                                then returned_boolean true (new_task self c)
                                else returned_error (native_error eng code)
                                       (new_task self c)]> ts) w.
Proof.
  intros Ht. unfold on_ca_play_full_finished.
  destruct (code =? CA_SUCCESS); cbn [negb];
    unfold g_task_return_new_error, g_task_return_error,
      g_task_return_boolean;
    now apply update_task_run.
Qed.

(** [gsound_context_play_full_finish] on a task of [self] that the
    completion callback has resolved with [code]. *)
Lemma play_full_finish_resolved (self t : nat) (c : GCancellable_ptr)
    (code : Z) (error : GError_loc) (w : world) :
  tasks w !! t
  = Some (if code =? CA_SUCCESS
          then returned_boolean true (new_task self c)
          else returned_error (native_error eng code) (new_task self c)) ->
  error_of error = None ->
  eval (gsound_context_play_full_finish self t error) w
  = if eval (g_cancellable_is_cancelled c) w
    then (false, g_propagate_error error cancelled_error)
    else test_return eng code error.
Proof.
  intros Ht Herr.
  unfold eval, gsound_context_play_full_finish, g_task_is_valid,
    g_task_propagate_boolean, g_cancellable_is_cancelled, update_task,
    gets, modify, mbind, M_bind, mret, M_ret, test_return.
  destruct error as [[e' |] |]; [discriminate | |].
  all: destruct (code =? CA_SUCCESS).
  all: cbn; rewrite !Ht; cbn; rewrite Nat.eqb_refl; cbn; rewrite ?Ht; cbn.
  all: now destruct (negb (c =? NULL) && cancelled (cancellable_of w c)).
Qed.

(** X13. Finishing a completed play.  Once the completion callback has
    run on a pending task with the status [code], and as long as the
    cancellable of the play has not been triggered,
    [gsound_context_play_full_finish] reports exactly what
    [test_return] makes of [code]: TRUE with the error untouched for
    [CA_SUCCESS], else FALSE with the native error.  When the
    cancellable has been triggered it reports [G_IO_ERROR_CANCELLED]
    instead, also for a play that completed with [CA_SUCCESS]. *)
Theorem finish_after_completion (w : world) (t self : nat)
    (c : GCancellable_ptr) (h : option ca_context) (id code : Z)
    (error : GError_loc) :
  tasks w !! t = Some (new_task self c) ->
  error_of error = None ->
  let w1 := exec (on_ca_play_full_finished eng h id code t) w in
  eval (gsound_context_play_full_finish self t error) w1
  = if eval (g_cancellable_is_cancelled c) w1
    then (false, g_propagate_error error cancelled_error)
    else test_return eng code error.
Proof.
  intros Ht Herr w1. subst w1.
  assert (Hlt : (t < length (tasks w))%nat) by (eapply lookup_lt_Some; eauto).
  apply (play_full_finish_resolved self t c code error); [| assumption].
  rewrite (on_ca_play_full_finished_pending _ _ _ _ _ _ _ Ht).
  cbn. now apply list_lookup_insert_eq.
Qed.

(** X14. An asynchronous play from start to finish.  When the native
    engine accepted a play that was given no cancellable and later
    completes it with the status [code], running the completion
    callback on the task that was registered and then finishing that
    task on the same context reports what [test_return] makes of
    [code]. *)
Theorem async_play_round_trip (self : nat) (args : va_list)
    (h : option ca_context) (id code : Z) (error : GError_loc)
    (w : world) :
  let w1 := exec (gsound_context_play_full eng self NULL args) w in
  let t := length (tasks w) in
  statuses is_play (new_calls w w1) = [CA_SUCCESS] ->
  error_of error = None ->
  play_callbacks (new_calls w w1) = [Some t]
  /\ eval (gsound_context_play_full_finish self t error)
       (exec (on_ca_play_full_finished eng h id code t) w1)
     = test_return eng code error.
Proof.
  intros w1 t Hplay Herr.
  destruct (play_full_accepted_pending eng self NULL args w Hplay)
    as (Ht & Hcb).
  split; [exact Hcb |].
  assert (Hlt : (t < length (tasks w1))%nat) by (eapply lookup_lt_Some; eauto).
  rewrite (play_full_finish_resolved self t NULL code error);
    [reflexivity | | assumption].
  rewrite (on_ca_play_full_finished_pending _ _ _ _ _ _ _ Ht).
  cbn. now apply list_lookup_insert_eq.
Qed.

End Async.

(** ** Handles and tasks *)

Section Accounting.

Variable eng : ca_engine.


(** X16. The completion callback resolves its own task and nothing
    else: every other task, the handles, the cancellables and the log
    of native calls are left as they were, and no task is added or
    removed.  Concurrent plays on one context do not disturb one
    another. *)
Theorem completion_touches_only_its_task (h : option ca_context)
    (id code : Z) (t : nat) (w : world) :
  let w' := exec (on_ca_play_full_finished eng h id code t) w in
  (forall t', t' <> t -> tasks w' !! t' = tasks w !! t')
  /\ length (tasks w') = length (tasks w)
  /\ contexts w' = contexts w
  /\ cancellables w' = cancellables w
  /\ ca_log w' = ca_log w.
Proof.
  intros w'. subst w'.
  assert (H : forall f,
            let w' := exec (update_task t f) w in
            (forall t', t' <> t -> tasks w' !! t' = tasks w !! t')
            /\ length (tasks w') = length (tasks w)
            /\ contexts w' = contexts w
            /\ cancellables w' = cancellables w
            /\ ca_log w' = ca_log w).
  { intros f. unfold exec, update_task, modify. cbn.
    destruct (tasks w !! t) as [task |]; [| now repeat split].
    split; [| now rewrite length_insert].
    intros t' Hne. now apply list_lookup_insert_ne. }
  unfold on_ca_play_full_finished, g_task_return_new_error,
    g_task_return_error, g_task_return_boolean.
  destruct (negb (code =? CA_SUCCESS)); apply H.
Qed.

End Accounting.

(** ** Instances of the later properties *)

Lemma play_simple_success_iff_accepted_witness :
  let refusing := engine_failing is_play CA_ERROR_OOM in
  eval (gsound_context_play_simple engine_ok 0%nat NULL (Some None) bell_args)
    world1
  = (true, Some None)
  /\ eval (gsound_context_play_simplev engine_ok 0%nat bell_attrs NULL
             (Some None)) world1
     = (true, Some None)
  /\ play_callbacks
       (new_calls world1
          (exec (gsound_context_play_simple engine_ok 0%nat NULL (Some None)
                   bell_args) world1))
     = [None]
  /\ fst (eval (gsound_context_play_simple refusing 0%nat NULL (Some None)
                  bell_args) world1)
     = false
  /\ fst (eval (gsound_context_play_simplev refusing 0%nat bell_attrs NULL
                  (Some None)) world1)
     = false.
Proof.
  intros refusing.
  destruct (play_simple_success_iff_accepted engine_ok 0%nat NULL (Some None)
              bell_args bell_attrs world1)
    as [(_ & Hcb & _ & _ & Hok & _) (_ & _ & _ & _ & Hokv & _)].
  destruct (play_simple_success_iff_accepted refusing 0%nat NULL (Some None)
              bell_args bell_attrs world1)
    as [(_ & _ & _ & _ & _ & Hno) (_ & _ & _ & _ & _ & Hnov)].
  split; [apply Hok; reflexivity |].
  split; [apply Hokv; reflexivity |].
  split; [exact Hcb |].
  split; [apply Hno | apply Hnov];
    intros log call Hplay; cbn; rewrite Hplay; discriminate.
Defined.

Lemma request_token_deterministic_witness :
  let w1 :=
    exec (gsound_context_play_simple engine_ok 0%nat cancellable1 (Some None)
            bell_args) world1 in
  let w2 :=
    exec (gsound_context_play_full engine_ok 0%nat cancellable1 bell_args)
      world1 in
  play_tokens (new_calls world1 w1) = [4096]
  /\ play_tokens (new_calls world1 w2) = [4096]
  /\ cancel_requests (new_calls w1 (exec (cancel engine_ok cancellable1) w1))
     = [(Some 0%nat, 4096)]
  /\ cancel_requests (new_calls w2 (exec (cancel engine_ok cancellable1) w2))
     = [(Some 0%nat, 4096)].
Proof.
  intros w1 w2.
  destruct (request_token_deterministic engine_ok 0%nat cancellable1
              (Some None) bell_args bell_attrs world1)
    as ((_ & Ht1 & _ & Hc1) & _ & (_ & Ht2 & _ & Hc2) & _).
  split; [exact Ht1 |]. split; [exact Ht2 |]. split; [exact Hc1 | exact Hc2].
Defined.

Lemma variadic_as_table_witness :
  accepts_sets engine_ok
  /\ gsound_context_play_simple engine_ok 0%nat NULL (Some None) bell_args
       world1
     = gsound_context_play_simplev engine_ok 0%nat bell_attrs NULL (Some None)
         world1
  /\ gsound_context_change_attrs engine_ok 0%nat (Some None) missing_value
       world1
     = gsound_context_change_attrsv engine_ok 0%nat [] (Some None) world1.
Proof.
  assert (Haccepts : accepts_sets engine_ok)
    by (intros log pl key value; reflexivity).
  split; [exact Haccepts |]. split.
  - destruct (variadic_as_table engine_ok Haccepts 0%nat NULL (Some None)
                bell_args world1) as (_ & H & _).
    exact H.
  - destruct (variadic_as_table engine_ok Haccepts 0%nat NULL (Some None)
                missing_value world1) as (H & _).
    exact H.
Defined.

Lemma init_commits_defaults_witness :
  let m := gsound_context_real_init engine_ok 0%nat NULL (Some None) in
  ca (context_of world0 0%nat) = None
  /\ statuses is_context_create (new_calls world0 (exec m world0))
     = [CA_SUCCESS]
  /\ statuses is_proplist_create (new_calls world0 (exec m world0))
     = [CA_SUCCESS]
  /\ statuses is_change_props (new_calls world0 (exec m world0))
     = [CA_SUCCESS]
  /\ eval m world0 = (true, Some None)
  /\ exists h pl,
       ca (context_of (exec m world0) 0%nat) = Some h
       /\ map fst (new_calls world0 (exec m world0))
          = [CaContextCreate; CaProplistCreate]
            ++ default_attribute_calls world0 (Some pl)
            ++ [CaContextChangePropsFull (Some h) (Some pl);
                CaProplistDestroy pl].
Proof.
  intros m. subst m.
  split; [reflexivity |]. split; [reflexivity |]. split; [reflexivity |].
  split; [reflexivity |].
  apply (init_commits_defaults engine_ok world0 0%nat NULL (Some None));
    reflexivity.
Defined.

Lemma finish_rejects_foreign_result_witness :
  match tasks world_playing !! 0%nat with
  | Some t => source_object t <> 1%nat
  | None => True
  end
  /\ gsound_context_play_full_finish 1%nat 0%nat (Some None) world_playing
     = ((false, Some None), world_playing).
Proof.
  assert (H : match tasks world_playing !! 0%nat with
              | Some t => source_object t <> 1%nat
              | None => True
              end)
    by (vm_compute; discriminate).
  split; [exact H |].
  apply (finish_rejects_foreign_result 1%nat 0%nat (Some None) world_playing H).
Defined.

Lemma finish_after_completion_witness :
  let w1 :=
    exec (on_ca_play_full_finished engine_ok (Some 0%nat)
            (g_direct_hash cancellable1) CA_ERROR_OOM 0%nat) world_playing in
  tasks world_playing !! 0%nat = Some (new_task 0 cancellable1)
  /\ error_of (Some None) = None
  /\ eval (gsound_context_play_full_finish 0%nat 0%nat (Some None)) w1
     = if eval (g_cancellable_is_cancelled cancellable1) w1
       then (false, g_propagate_error (Some None) cancelled_error)
       else test_return engine_ok CA_ERROR_OOM (Some None).
Proof.
  intros w1. subst w1.
  split; [reflexivity |]. split; [reflexivity |].
  apply (finish_after_completion engine_ok world_playing 0%nat 0%nat
           cancellable1 (Some 0%nat) (g_direct_hash cancellable1)
           CA_ERROR_OOM (Some None));
    reflexivity.
Defined.

Lemma async_play_round_trip_witness :
  let w1 :=
    exec (gsound_context_play_full engine_ok 0%nat NULL bell_args) world1 in
  statuses is_play (new_calls world1 w1) = [CA_SUCCESS]
  /\ error_of (Some None) = None
  /\ play_callbacks (new_calls world1 w1) = [Some 0%nat]
  /\ eval (gsound_context_play_full_finish 0%nat 0%nat (Some None))
       (exec (on_ca_play_full_finished engine_ok (Some 0%nat) 0
                CA_ERROR_CANCELED 0%nat) w1)
     = test_return engine_ok CA_ERROR_CANCELED (Some None).
Proof.
  intros w1. subst w1.
  split; [reflexivity |]. split; [reflexivity |].
  apply (async_play_round_trip engine_ok 0%nat bell_args (Some 0%nat) 0
           CA_ERROR_CANCELED (Some None) world1);
    reflexivity.
Defined.

